(** * Abakada: the unified filter and search module

    A shallow embedding of [assets/js/search.js] and the properties of
    its search, filter and sanitising operations.

    Conventions of the embedding.
    - A JavaScript string is the list of its UTF-16 code units ([N]).
    - A tool is a JSON object following the schema of [tools.json]:
      every field is optional, string fields hold strings and list
      fields hold arrays of strings.  Any other value may appear where
      the code accepts arbitrary input ([toolsData], the argument of
      [sanitizeQuery]).  Objects whose fields have other types, and the
      TypeError that reading such a field as a string or a list raises,
      are not represented: every statement about tools is about tools
      that follow the schema.
    - Numbers that stay integral are [nat] or [Z]; the fuzzy similarity
      is a binary64 value, kept as the rational it denotes and rounded
      after each operation.
    - The browser (DOM, console, registered callbacks, subscribers) is a
      parameter [host]: every call into it may return or throw, and is
      recorded in the list of events an operation emits.  Callbacks act on
      the browser only; they do not call back into the module. *)

From Stdlib Require Import ZArith QArith Qround Lia String Ascii DecimalString.
From Stdlib Require Import Permutation Sorted.
From stdpp Require Import base list gmap.

(** ** Strings *)

Abbreviation jstring := (list N).

(** A string literal of the source (ASCII). *)
Definition lit (s : string) : jstring := N_of_ascii <$> list_ascii_of_string s.

(** The class [\s] of regular expressions, which is also what [trim]
    strips: WhiteSpace and LineTerminator of ECMAScript. *)
Definition isWhiteSpace (c : N) : bool :=
  ((9 <=? c) && (c <=? 13) || (c =? 32) || (c =? 160) || (c =? 5760)
   || (8192 <=? c) && (c <=? 8202) || (c =? 8232) || (c =? 8233)
   || (c =? 8239) || (c =? 8287) || (c =? 12288) || (c =? 65279))%N.

(** The class [[\x00-\x1F\x7F]]. *)
Definition isControl (c : N) : bool := ((c <=? 31) || (c =? 127))%N.

(** Lower-case mapping of one code unit.  The Unicode table is modelled on
    Basic Latin, the Latin-1 Supplement and U+0130 (capital I with dot
    above, the one code point whose lower-case form is longer: U+0069
    U+0307); every other code unit is left as it is. *)
Definition lower_unit (c : N) : jstring :=
  if ((65 <=? c) && (c <=? 90))%N then [(c + 32)%N]
  else if ((192 <=? c) && (c <=? 222) && negb (c =? 215))%N then [(c + 32)%N]
  else if (c =? 304)%N then [105%N; 775%N]
  else [c].

Definition toLowerCase (s : jstring) : jstring := s ≫= lower_unit.

Fixpoint startsWith (s w : jstring) : bool :=
  match w, s with
  | [], _ => true
  | _ :: _, [] => false
  | c :: w', d :: s' => (c =? d)%N && startsWith s' w'
  end.

Fixpoint includes (s w : jstring) : bool :=
  startsWith s w ||
  match s with
  | [] => false
  | _ :: s' => includes s' w
  end.

(** [s.substring(0, n)]. *)
Definition substring0 (s : jstring) (n : nat) : jstring := take n s.

Fixpoint trimStart (s : jstring) : jstring :=
  match s with
  | [] => []
  | c :: s' => if isWhiteSpace c then trimStart s' else s
  end.

Definition trim (s : jstring) : jstring :=
  reverse (trimStart (reverse (trimStart s))).

(** [s.replace(/[\x00-\x1F\x7F]/g, '')]. *)
Definition removeControl (s : jstring) : jstring :=
  List.filter (λ c, negb (isControl c)) s.

(** [s.replace(/\s+/g, ' ')]; [in_run] tells that the previous code unit
    was white space, already replaced. *)
Fixpoint collapseWhiteSpace (in_run : bool) (s : jstring) : jstring :=
  match s with
  | [] => []
  | c :: s' =>
      if isWhiteSpace c
      then (if in_run then [] else [32%N]) ++ collapseWhiteSpace true s'
      else c :: collapseWhiteSpace false s'
  end.

(** [s.split(/\s+/)]; [cur] is the piece being read, reversed. *)
Fixpoint splitWhiteSpace (in_run : bool) (cur : jstring) (s : jstring) : list jstring :=
  match s with
  | [] => [reverse cur]
  | c :: s' =>
      if isWhiteSpace c
      then (if in_run then [] else [reverse cur]) ++ splitWhiteSpace true [] s'
      else splitWhiteSpace false (c :: cur) s'
  end.

Definition split_ws (s : jstring) : list jstring := splitWhiteSpace false [] s.

(** [parts.join(sep)] on an array of strings. *)
Fixpoint join (sep : jstring) (parts : list jstring) : jstring :=
  match parts with
  | [] => []
  | [x] => x
  | x :: rest => x ++ sep ++ join sep rest
  end.

(** ** Values *)

Module Tool.
(** A tool record of [tools.json]; [None] is an absent field. *)
Record t : Type := mk {
  id : option jstring;
  name : option jstring;
  tagline : option jstring;
  description : option jstring;
  license : option jstring;
  category : option jstring;
  tags : option (list jstring);
  platforms : option (list jstring);
  alternatives_to : option (list jstring)
}.
End Tool.

#[warnings="-register-all"]
Inductive JsVal : Type :=
| JUndefined
| JNull
| JBool (b : bool)
| JNum (n : Z)
| JStr (s : jstring)
| JArr (elems : list JsVal)
| JObj (o : Tool.t).

(** ToBoolean. *)
Definition truthy (v : JsVal) : bool :=
  match v with
  | JUndefined | JNull => false
  | JBool b => b
  | JNum n => negb (n =? 0)%Z
  | JStr s => negb (bool_decide (s = []))
  | JArr _ | JObj _ => true
  end.

(** Truthiness of an optional string field ([undefined] and [''] are falsy). *)
Definition truthy_str (f : option jstring) : bool :=
  match f with
  | Some (_ :: _) => true
  | _ => false
  end.

(** [typeof v === 'object']. *)
Definition typeof_object (v : JsVal) : bool :=
  match v with
  | JNull | JArr _ | JObj _ => true
  | _ => false
  end.

(** [v.field] where [v] is known not to be [null] or [undefined], and
    [v?.field]: only tool objects carry the fields read by this module. *)
Definition field {A} (f : Tool.t → option A) (v : JsVal) : option A :=
  match v with
  | JObj o => f o
  | _ => None
  end.

(** [String(v)]; numbers are integers, printed in decimal. *)
Fixpoint ToString (v : JsVal) : jstring :=
  match v with
  | JUndefined => lit "undefined"
  | JNull => lit "null"
  | JBool true => lit "true"
  | JBool false => lit "false"
  | JNum n => lit (NilZero.string_of_int (Z.to_int n))
  | JStr s => s
  | JArr elems =>
      join (lit ",")
        (map (λ e, match e with
                   | JUndefined | JNull => []
                   | _ => ToString e
                   end) elems)
  | JObj _ => lit "[object Object]"
  end.

(** ** Numbers of the fuzzy score (binary64) *)

Definition round_half_even (n d : Z) : Z :=
  let q := (n / d)%Z in
  let r := (n mod d)%Z in
  if (2 * r <? d)%Z then q
  else if (d <? 2 * r)%Z then (q + 1)%Z
  else if Z.even q then q else (q + 1)%Z.

(** The binary64 value nearest to [x] (ties to even); magnitudes stay far
    below the overflow threshold here. *)
Definition b64 (x : Q) : Q :=
  let n := Z.abs (Qnum x) in
  let d := Z.pos (Qden x) in
  if (n =? 0)%Z then 0%Q
  else
    let scaled (e : Z) : Z * Z :=
      if (0 <=? e)%Z then (n, d * 2 ^ e)%Z else (n * 2 ^ (- e), d)%Z in
    let e0 := (Z.log2 n - Z.log2 d - 52)%Z in
    let e1 :=
      if (fst (scaled e0) <? snd (scaled e0) * 2 ^ 52)%Z then (e0 - 1)%Z else e0 in
    let e := Z.max e1 (-1074) in
    let m := (Z.sgn (Qnum x) * round_half_even (fst (scaled e)) (snd (scaled e)))%Z in
    if (0 <=? e)%Z then inject_Z (m * 2 ^ e)
    else Qred (Qmake m (Z.to_pos (2 ^ (- e)))).

Definition fdiv (x y : Q) : Q := b64 (x / y).
Definition fsub (x y : Q) : Q := b64 (x - y).
Definition fmul (x y : Q) : Q := b64 (x * y).
Definition Qltb (x y : Q) : bool := negb (Qle_bool y x).
Definition of_nat (n : nat) : Q := inject_Z (Z.of_nat n).

(** ** Configuration *)

Definition MAX_QUERY_LENGTH : nat := 100.
Definition MIN_SEARCH_LENGTH : nat := 1.
Definition FUZZY_THRESHOLD : Q := b64 (6 # 10).

(** ** Levenshtein distance *)

(** [arr[i] = v] on an array: an index beyond the end extends the array
    (the cells in between are holes, never read by this module). *)
Definition js_store {A} (hole : A) (arr : list A) (i : nat) (v : A) : list A :=
  if decide (i < length arr) then <[i:=v]> arr
  else arr ++ replicate (i - length arr) hole ++ [v].

(** [matrix[i][j]] and [matrix[i][j] = v]; row [i] exists wherever the
    code reads or writes it. *)
Definition mget (matrix : list (list nat)) (i j : nat) : nat :=
  default 0 (matrix !! i ≫= (.!! j)).

Definition mset (matrix : list (list nat)) (i j v : nat) : list (list nat) :=
  alter (λ row, js_store 0 row j v) i matrix.

(** [Math.min(x, y, z)]. *)
Definition min3 (x y z : nat) : nat := x `min` (y `min` z).

Definition levenshteinDistance (a b : jstring) : nat :=
  if decide (length a = 0) then length b
  else if decide (length b = 0) then length a
  else
    let matrix := foldl (λ m i, js_store [] m i [i]) [] (seq 0 (S (length b))) in
    let matrix := foldl (λ m j, mset m 0 j j) matrix (seq 0 (S (length a))) in
    let matrix :=
      foldl (λ m i,
        foldl (λ m j,
          if decide (b !! (i - 1) = a !! (j - 1))
          then mset m i j (mget m (i - 1) (j - 1))
          else mset m i j (min3 (mget m (i - 1) (j - 1) + 1)
                                (mget m i (j - 1) + 1)
                                (mget m (i - 1) j + 1)))
        m (seq 1 (length a)))
      matrix (seq 1 (length b)) in
    mget matrix (length b) (length a).

(** ** Scoring *)

Record IndexEntry : Type := {
  text : jstring;
  words : list jstring;
  alternatives : list jstring
}.

(** The body of the loop of [fuzzyMatch], from [bestScore] on. *)
Fixpoint fuzzyMatch_from (query : jstring) (bestScore : Q) (ws : list jstring) : Q :=
  match ws with
  | [] => bestScore
  | word :: rest =>
      if length word <? 2 then fuzzyMatch_from query bestScore rest
      else if startsWith word query then 1%Q
      else
        let distance :=
          levenshteinDistance query (substring0 word (length query + 2)) in
        let maxLen := length query `max` length word in
        let similarity := fsub 1 (fdiv (of_nat distance) (of_nat maxLen)) in
        fuzzyMatch_from query
          (if Qltb bestScore similarity then similarity else bestScore) rest
  end.

Definition fuzzyMatch (query : jstring) (ws : list jstring) : Q :=
  fuzzyMatch_from query 0%Q ws.

(** The score of one query word: the chain of tests in the loop of
    [calculateMatchScore]. *)
Definition wordScore (lowerName lowerTagline : jstring) (indexed : IndexEntry)
    (word : jstring) : Z :=
  if bool_decide (lowerName = word) then 100
  else if startsWith lowerName word then 80
  else if includes lowerName word then 60
  else if startsWith lowerTagline word then 40
  else if includes lowerTagline word then 30
  else if existsb (λ alt, includes alt word) (alternatives indexed) then 70
  else if includes (text indexed) word then 20
  else
    let fuzzyScore := fuzzyMatch word (words indexed) in
    if Qltb FUZZY_THRESHOLD fuzzyScore then Qfloor (fmul fuzzyScore 15) else 0.

(** The loop of [calculateMatchScore], from [totalScore] on. *)
Fixpoint calculateMatchScore_from (lowerName lowerTagline : jstring)
    (indexed : IndexEntry) (totalScore : Z) (queryWords : list jstring) : Z :=
  match queryWords with
  | [] => totalScore
  | word :: rest =>
      let ws := wordScore lowerName lowerTagline indexed word in
      if (ws =? 0)%Z then 0%Z
      else calculateMatchScore_from lowerName lowerTagline indexed
             (totalScore + ws)%Z rest
  end.

Definition calculateMatchScore (searchIndex : gmap (option jstring) IndexEntry)
    (tool : JsVal) (queryWords : list jstring) : Z :=
  if negb (truthy tool) || bool_decide (length queryWords = 0) then 0%Z
  else
    match searchIndex !! field Tool.id tool with
    | None => 0%Z
    | Some indexed =>
        let lowerName := toLowerCase (default [] (field Tool.name tool)) in
        let lowerTagline := toLowerCase (default [] (field Tool.tagline tool)) in
        calculateMatchScore_from lowerName lowerTagline indexed 0 queryWords
    end.

(** [Array.prototype.sort] with a comparator: a stable sort (ECMAScript
    2019); the element inserted precedes every later element that does
    not compare below it. *)
Fixpoint sort_insert {A} (cmp : A → A → Z) (x : A) (l : list A) : list A :=
  match l with
  | [] => [x]
  | y :: l' => if (cmp x y <=? 0)%Z then x :: l else y :: sort_insert cmp x l'
  end.

Definition js_sort {A} (cmp : A → A → Z) (l : list A) : list A :=
  foldr (sort_insert cmp) [] l.

(** ** The state of the module *)

Module State.
(** The unified filter state [state]. *)
Record t : Type := mk {
  query : jstring;
  category : jstring;
  platforms : list jstring;
  tags : list jstring;
  isInitialized : bool
}.
End State.

(** A function object handed to the module, known by its identity. *)
Definition Callback : Type := N.

(** The variables of the module closure. *)
Record Vars : Type := mkVars {
  state : State.t;
  tools : list JsVal;
  onResultsCallback : option Callback;
  lastProcessedKey : option jstring;
  searchIndex : gmap (option jstring) IndexEntry
}.

Definition initialVars : Vars :=
  {| state := State.mk [] (lit "all") [] [] false;
     tools := [];
     onResultsCallback := None;
     lastProcessedKey := None;
     searchIndex := ∅ |}.

Definition with_state (f : State.t → State.t) (v : Vars) : Vars :=
  mkVars (f (state v)) (tools v) (onResultsCallback v) (lastProcessedKey v) (searchIndex v).
Definition with_tools (x : list JsVal) (v : Vars) : Vars :=
  mkVars (state v) x (onResultsCallback v) (lastProcessedKey v) (searchIndex v).
Definition with_onResultsCallback (x : option Callback) (v : Vars) : Vars :=
  mkVars (state v) (tools v) x (lastProcessedKey v) (searchIndex v).
Definition with_lastProcessedKey (x : option jstring) (v : Vars) : Vars :=
  mkVars (state v) (tools v) (onResultsCallback v) x (searchIndex v).
Definition with_searchIndex
    (f : gmap (option jstring) IndexEntry → gmap (option jstring) IndexEntry)
    (v : Vars) : Vars :=
  mkVars (state v) (tools v) (onResultsCallback v) (lastProcessedKey v) (f (searchIndex v)).

Definition set_query (x : jstring) (s : State.t) : State.t :=
  State.mk x (State.category s) (State.platforms s) (State.tags s) (State.isInitialized s).
Definition set_category (x : jstring) (s : State.t) : State.t :=
  State.mk (State.query s) x (State.platforms s) (State.tags s) (State.isInitialized s).
Definition set_platforms (x : list jstring) (s : State.t) : State.t :=
  State.mk (State.query s) (State.category s) x (State.tags s) (State.isInitialized s).
Definition set_tags (x : list jstring) (s : State.t) : State.t :=
  State.mk (State.query s) (State.category s) (State.platforms s) x (State.isInitialized s).
Definition set_isInitialized (x : bool) (s : State.t) : State.t :=
  State.mk (State.query s) (State.category s) (State.platforms s) (State.tags s) x.

Definition hasActiveFilters (s : State.t) : bool :=
  (0 <? length (State.query s)) || (0 <? length (State.platforms s))
  || (0 <? length (State.tags s)) || negb (bool_decide (State.category s = lit "all")).

Module Meta.
(** The second argument of the results callback. *)
Record t : Type := mk {
  query : jstring;
  category : jstring;
  platforms : list jstring;
  tags : list jstring;
  total : nat;
  hasQuery : bool;
  hasFilters : bool;
  hasActiveFilters : bool
}.
End Meta.

Module Snapshot.
(** The copy of the state returned by [getState]. *)
Record t : Type := mk {
  query : jstring;
  category : jstring;
  platforms : list jstring;
  tags : list jstring;
  resultsCount : nat;
  isInitialized : bool;
  hasQuery : bool;
  hasFilters : bool;
  hasActiveFilters : bool
}.
End Snapshot.

Definition getState (v : Vars) : Snapshot.t :=
  let s := state v in
  Snapshot.mk (State.query s) (State.category s) (State.platforms s) (State.tags s)
    (length (tools v)) (State.isInitialized s)
    (0 <? length (State.query s))
    ((0 <? length (State.platforms s)) || (0 <? length (State.tags s)))
    (hasActiveFilters s).

(** ** The browser and the effects of an operation *)

(** The calls that leave the module. *)
Inductive Event : Type :=
| ConsoleWarn
| ConsoleLog
| ConsoleError
| SetupListeners
| HideLoadingState
| OnResults (cb : Callback) (results : list JsVal) (meta : Meta.t)
| AnnounceResults (count : nat) (query : jstring) (filterCount : nat)
| StateChanged (s : Snapshot.t)
| GetSearchInput
| SetInputValue (value : JsVal)
| UpdateSearchInputUI (hasValue : bool)
| ShowLoadingState
| FocusInput
| BlurTarget.

Inductive Completion (A : Type) : Type :=
| Normal (a : A)
| Thrown.
Arguments Normal {A} a.
Arguments Thrown {A}.

Record Run (World : Type) : Type := mkRun {
  vars : Vars;
  world : World
}.
Arguments mkRun {World} vars world.
Arguments vars {World} r.
Arguments world {World} r.

(** An operation: from the variables and the browser to a completion, the
    new variables and browser, and the calls made on the way. *)
Definition Eff (World A : Type) : Type :=
  Run World → Completion A * Run World * list Event.

Definition eff_ret {W A} (a : A) : Eff W A := λ r, (Normal a, r, []).

Definition eff_bind {W A B} (m : Eff W A) (k : A → Eff W B) : Eff W B :=
  λ r,
    match m r with
    | (Normal a, r1, ev1) => let '(c, r2, ev2) := k a r1 in (c, r2, ev1 ++ ev2)
    | (Thrown, r1, ev1) => (Thrown, r1, ev1)
    end.

#[global] Instance eff_mret {W} : MRet (Eff W) := λ A, eff_ret.
#[global] Instance eff_mbind {W} : MBind (Eff W) := λ A B k m, eff_bind m k.

(** [try { body } catch (error) { handler }]. *)
Definition try_catch {W A} (body handler : Eff W A) : Eff W A :=
  λ r,
    match body r with
    | (Normal a, r1, ev1) => (Normal a, r1, ev1)
    | (Thrown, r1, ev1) => let '(c, r2, ev2) := handler r1 in (c, r2, ev1 ++ ev2)
    end.

Definition throw {W A} : Eff W A := λ r, (Thrown, r, []).

Definition get {W} : Eff W Vars := λ r, (Normal (vars r), r, []).

Definition modify {W} (f : Vars → Vars) : Eff W unit :=
  λ r, (Normal (), mkRun (f (vars r)) (world r), []).

Fixpoint forEach {W A} (l : list A) (f : A → Eff W unit) : Eff W unit :=
  match l with
  | [] => mret ()
  | x :: l' => f x;; forEach l' f
  end.

(** The events an operation emits from [r], and where it leaves the run. *)
Definition events {W A} (m : Eff W A) (r : Run W) : list Event := (m r).2.
Definition final {W A} (m : Eff W A) (r : Run W) : Run W := (m r).1.2.
Definition completion {W A} (m : Eff W A) (r : Run W) : Completion A := (m r).1.1.

(** ** Sanitising the query *)

Definition sanitizeQuery (input : JsVal) : jstring :=
  match input with
  | JUndefined | JNull => []
  | _ =>
      let query := collapseWhiteSpace false (trim (removeControl (ToString input))) in
      let query :=
        if MAX_QUERY_LENGTH <? length query
        then substring0 query MAX_QUERY_LENGTH
        else query in
      toLowerCase query
  end.

(** ** The stages of the search *)

(** [x || ''] and [x || []] on an optional field. *)
Definition or_empty {A} (x : option (list A)) : list A := default [] x.

Definition filterByCategory (s : State.t) (results : list JsVal) : list JsVal :=
  if negb (bool_decide (State.category s = []))
     && negb (bool_decide (State.category s = lit "all"))
  then List.filter
         (λ tool, bool_decide (field Tool.category tool = Some (State.category s)))
         results
  else results.

Definition filterByPlatforms (s : State.t) (results : list JsVal) : list JsVal :=
  if 0 <? length (State.platforms s)
  then List.filter
         (λ tool,
            let toolPlatforms := or_empty (field Tool.platforms tool) in
            existsb (λ p, bool_decide (p ∈ toolPlatforms)) (State.platforms s))
         results
  else results.

Definition filterByTags (s : State.t) (results : list JsVal) : list JsVal :=
  if 0 <? length (State.tags s)
  then List.filter
         (λ tool,
            let toolTags := or_empty (field Tool.tags tool) in
            existsb (λ t, bool_decide (t ∈ toolTags)) (State.tags s))
         results
  else results.

Definition queryWordsOf (query : jstring) : list jstring :=
  List.filter (λ w, 0 <? length w) (split_ws query).

Definition filterByQuery (index : gmap (option jstring) IndexEntry) (s : State.t)
    (results : list JsVal) : list JsVal :=
  if negb (bool_decide (State.query s = []))
     && (MIN_SEARCH_LENGTH <=? length (State.query s))
  then
    let queryWords := queryWordsOf (State.query s) in
    let items := map (λ tool, (tool, calculateMatchScore index tool queryWords)) results in
    let items := List.filter (λ item, (0 <? item.2)%Z) items in
    let items := js_sort (λ a b, (b.2 - a.2)%Z) items in
    map fst items
  else results.

(** The tools that pass the category, platform and tag filters. *)
Definition filtered (v : Vars) : list JsVal :=
  filterByTags (state v) (filterByPlatforms (state v) (filterByCategory (state v) (tools v))).

(** The list handed to [notifyResults] at the end of the search. *)
Definition searchResults (v : Vars) : list JsVal :=
  filterByQuery (searchIndex v) (state v) (filtered v).

Definition searchKeyOf (s : State.t) : jstring :=
  State.query s ++ lit "|" ++ State.category s ++ lit "|"
  ++ join (lit ",") (State.platforms s) ++ lit "|" ++ join (lit ",") (State.tags s).

Definition metaOf (v : Vars) : Meta.t :=
  let s := state v in
  Meta.mk (State.query s) (State.category s) (State.platforms s) (State.tags s)
    (length (tools v))
    (0 <? length (State.query s))
    ((0 <? length (State.platforms s)) || (0 <? length (State.tags s)))
    (hasActiveFilters s).

(** The entry of the search index built for one tool. *)
Definition indexEntryOf (tool : JsVal) : IndexEntry :=
  let searchText :=
    toLowerCase
      (join (lit " ")
         ([or_empty (field Tool.name tool); or_empty (field Tool.tagline tool);
           or_empty (field Tool.description tool); or_empty (field Tool.license tool)]
          ++ or_empty (field Tool.tags tool)
          ++ or_empty (field Tool.platforms tool)
          ++ or_empty (field Tool.alternatives_to tool))) in
  {| text := searchText;
     words := List.filter (λ w, 1 <? length w) (split_ws searchText);
     alternatives := map toLowerCase (or_empty (field Tool.alternatives_to tool)) |}.

(** The test of [init] on each element of [toolsData]. *)
Definition validTool (tool : JsVal) : bool :=
  truthy tool && typeof_object tool
  && truthy_str (field Tool.id tool) && truthy_str (field Tool.name tool).

(** [arr.indexOf(x)]; [None] stands for [-1]. *)
Fixpoint indexOf (arr : list jstring) (x : jstring) : option nat :=
  match arr with
  | [] => None
  | y :: arr' => if decide (y = x) then Some 0 else S <$> indexOf arr' x
  end.

(** The change [togglePlatform] and [toggleTag] make to their list:
    [push] when [indexOf] is [-1], [splice(index, 1)] otherwise. *)
Definition toggle (arr : list jstring) (x : jstring) : list jstring :=
  match indexOf arr x with
  | None => arr ++ [x]
  | Some index => delete index arr
  end.

(** [v.length > 0]; [None] is the TypeError of reading a property of
    [null] or [undefined].  Strings and arrays have a length; on the
    other values [length] is [undefined], which is not above 0. *)
Definition length_positive (v : JsVal) : option bool :=
  match v with
  | JUndefined | JNull => None
  | JStr s => Some (0 <? length s)
  | JArr elems => Some (0 <? length elems)
  | _ => Some false
  end.

(** The class [[.*+?^${}()|[\]\\]] of [escapeRegExp]. *)
Definition isRegExpSpecial (c : N) : bool :=
  bool_decide (c ∈ [46; 42; 43; 63; 94; 36; 123; 125; 40; 41; 124; 91; 93; 92]%N).

(** [String(string || '').replace(/[.*+?^${}()|[\]\\]/g, '\\$&')]. *)
Definition escapeRegExp (string : JsVal) : jstring :=
  ToString (if truthy string then string else JStr [])
  ≫= λ c, if isRegExpSpecial c then [92%N; c] else [c].

(** ** The operations of the module *)

Section Operations.
Context {World : Type}.
Variable host : Event → World → bool * World.

(** A call into the browser; [true] tells that it threw. *)
Definition call (e : Event) : Eff World unit :=
  λ r, let '(threw, w) := host e (world r) in
       (if threw then Thrown else Normal (), mkRun (vars r) w, [e]).

Definition hideLoadingState : Eff World unit := call HideLoadingState.

Definition notifyResults (results : list JsVal) : Eff World unit :=
  v ← get;
  match onResultsCallback v with
  | Some cb => call (OnResults cb results (metaOf v))
  | None => mret ()
  end.

Definition announceResults (count : nat) (query : jstring) : Eff World unit :=
  v ← get;
  call (AnnounceResults count query
          (length (State.platforms (state v)) + length (State.tags (state v)))).

(** [StateChanged] stands for the whole notification: the subscribers
    are called in turn with the copy of the state, each inside its own
    [try], and the window event is dispatched; it throws when the logging
    of a subscriber's error or the dispatch throws. *)
Definition notifyStateChange : Eff World unit :=
  v ← get;
  call (StateChanged (getState v)).

Definition performSearch_try : Eff World unit :=
  v ← get;
  let searchKey := searchKeyOf (state v) in
  if bool_decide (Some searchKey = lastProcessedKey v)
  then hideLoadingState
  else
    modify (with_lastProcessedKey (Some searchKey));;
    let results := tools v in
    let results := filterByCategory (state v) results in
    let results := filterByPlatforms (state v) results in
    let results := filterByTags (state v) results in
    let results := filterByQuery (searchIndex v) (state v) results in
    hideLoadingState;;
    notifyResults results;;
    announceResults (length results) (State.query (state v)).

Definition performSearch_catch : Eff World unit :=
  call ConsoleError;;
  hideLoadingState;;
  v ← get;
  notifyResults (tools v).

Definition performSearch : Eff World unit :=
  try_catch performSearch_try performSearch_catch.

Definition buildSearchIndex : Eff World unit :=
  modify (with_searchIndex (λ _, ∅));;
  v ← get;
  forEach (tools v) (λ tool,
    match tool with
    | JUndefined | JNull => throw
    | _ =>
        modify (with_searchIndex (λ index,
          <[field Tool.id tool := indexEntryOf tool]> index))
    end).

Definition setupEventListeners : Eff World unit :=
  try_catch (call SetupListeners) (call ConsoleError).

Definition init (toolsData : JsVal) (onResults : option Callback) : Eff World unit :=
  try_catch
    (v ← get;
     if State.isInitialized (state v)
     then call ConsoleWarn
     else
       modify (with_tools
                 match toolsData with
                 | JArr elems => List.filter validTool elems
                 | _ => []
                 end);;
       buildSearchIndex;;
       modify (with_onResultsCallback onResults);;
       setupEventListeners;;
       modify (with_state (set_isInitialized true));;
       call ConsoleLog)
    (call ConsoleError;;
     modify (with_state (set_isInitialized true));;
     modify (with_tools [])).

Definition setCategory (category : option jstring) : Eff World unit :=
  modify (with_state (set_category (default (lit "all") category)));;
  performSearch;;
  notifyStateChange.

Definition setPlatforms (platforms : option (list jstring)) : Eff World unit :=
  modify (with_state (set_platforms (or_empty platforms)));;
  performSearch;;
  notifyStateChange.

Definition togglePlatform (platform : jstring) : Eff World unit :=
  modify (with_state (λ s, set_platforms (toggle (State.platforms s) platform) s));;
  performSearch;;
  notifyStateChange.

Definition setTags (tags : option (list jstring)) : Eff World unit :=
  modify (with_state (set_tags (or_empty tags)));;
  performSearch;;
  notifyStateChange.

Definition toggleTag (tag : jstring) : Eff World unit :=
  modify (with_state (λ s, set_tags (toggle (State.tags s) tag) s));;
  performSearch;;
  notifyStateChange.

Definition clearFilters : Eff World unit :=
  modify (with_state (λ s, set_tags [] (set_platforms [] s)));;
  performSearch;;
  notifyStateChange.

Definition reset : Eff World unit :=
  modify (λ _, initialVars).

Definition updateSearchInputUI (hasValue : bool) : Eff World unit :=
  call (UpdateSearchInputUI hasValue).

Definition showLoadingState : Eff World unit := call ShowLoadingState.

(** [searchInput] is looked up first; [SetInputValue] stands for the
    guarded assignment [if (searchInput) searchInput.value = ...]. *)
Definition clearSearch : Eff World unit :=
  call GetSearchInput;;
  call (SetInputValue (JStr []));;
  modify (with_state (set_query []));;
  modify (with_lastProcessedKey None);;
  updateSearchInputUI false;;
  performSearch;;
  notifyStateChange;;
  call FocusInput.

Definition setQuery (query : JsVal) : Eff World unit :=
  call GetSearchInput;;
  modify (with_state (set_query (sanitizeQuery query)));;
  call (SetInputValue query);;
  match length_positive query with
  | None => throw
  | Some hasValue =>
      updateSearchInputUI hasValue;;
      performSearch;;
      notifyStateChange
  end.

Definition resetAll : Eff World unit :=
  call GetSearchInput;;
  modify (with_state (set_query []));;
  modify (with_state (set_category (lit "all")));;
  modify (with_state (set_platforms []));;
  modify (with_state (set_tags []));;
  modify (with_lastProcessedKey None);;
  call (SetInputValue (JStr []));;
  updateSearchInputUI false;;
  performSearch;;
  notifyStateChange.

(** [value] is [e?.target?.value]. *)
Definition handleSearchInput (value : JsVal) : Eff World unit :=
  try_catch
    (let rawValue :=
       match value with
       | JUndefined | JNull => JStr []
       | _ => value
       end in
     modify (with_state (set_query (sanitizeQuery rawValue)));;
     match length_positive rawValue with
     | None => throw
     | Some hasValue =>
         updateSearchInputUI hasValue;;
         showLoadingState;;
         performSearch;;
         notifyStateChange
     end)
    (call ConsoleError;;
     v ← get;
     notifyResults (tools v)).

(** [key] is [e.key]. *)
Definition handleKeydown (key : jstring) : Eff World unit :=
  if bool_decide (key = lit "Escape")
  then clearSearch;; call BlurTarget
  else mret ().
End Operations.

(** ** Notions used to state the properties *)

(** One single-character edit: an insertion, a deletion or a substitution
    somewhere in the string. *)
Inductive edit1 : jstring → jstring → Prop :=
| edit1_ins l1 c l2 : edit1 (l1 ++ l2) (l1 ++ c :: l2)
| edit1_del l1 c l2 : edit1 (l1 ++ c :: l2) (l1 ++ l2)
| edit1_sub l1 c c' l2 : edit1 (l1 ++ c :: l2) (l1 ++ c' :: l2).

(** [edits n a b]: [n] single-character edits transform [a] into [b]. *)
Inductive edits : nat → jstring → jstring → Prop :=
| edits_O a : edits 0 a a
| edits_S n a b c : edit1 a b → edits n b c → edits (S n) a c.

(** An alignment of two strings, read from the left, with its cost. *)
Inductive align : nat → jstring → jstring → Prop :=
| align_nil : align 0 [] []
| align_keep n x a b : align n a b → align n (x :: a) (x :: b)
| align_sub n x y a b : align n a b → align (S n) (x :: a) (y :: b)
| align_del n x a b : align n a b → align (S n) (x :: a) b
| align_ins n y a b : align n a b → align (S n) a (y :: b).

(** The recurrence the matrix is filled with, as a function of the two
    strings. *)
Fixpoint lev_rec (a : jstring) : jstring → nat :=
  fix lev_a (b : jstring) : nat :=
    match a, b with
    | [], _ => length b
    | _, [] => length a
    | x :: a', y :: b' =>
        if decide (y = x) then lev_rec a' b'
        else min3 (lev_rec a' b' + 1) (lev_rec a' (y :: b') + 1) (lev_a b' + 1)
    end.

(** What cell [matrix[i][j]] holds once written, the row [r] of the matrix
    while cell [(i, j)] is the next to be written, and the whole matrix
    then. *)
Definition dp_cell (a b : jstring) (i j : nat) : nat :=
  lev_rec (reverse (take j a)) (reverse (take i b)).

Definition dp_row (a b : jstring) (i j r : nat) : list nat :=
  if decide (r < i) then dp_cell a b r <$> seq 0 (S (length a))
  else if decide (r = i) then dp_cell a b i <$> seq 0 j
  else [r].

Definition dp_matrix (a b : jstring) (i j : nat) : list (list nat) :=
  dp_row a b i j <$> seq 0 (S (length b)).

(** The body of the inner loop of [levenshteinDistance]. *)
Definition inner_body (a b : jstring) (i : nat) (m : list (list nat)) (j : nat)
    : list (list nat) :=
  if decide (b !! (i - 1) = a !! (j - 1))
  then mset m i j (mget m (i - 1) (j - 1))
  else mset m i j (min3 (mget m (i - 1) (j - 1) + 1)
                        (mget m i (j - 1) + 1)
                        (mget m (i - 1) j + 1)).

(** [w] occurs in [s]. *)
Definition infix_of (w s : jstring) : Prop := ∃ l1 l2, s = l1 ++ w ++ l2.

(** The similarity [fuzzyMatch] computes between a query word and one
    indexed word. *)
Definition similarity (query word : jstring) : Q :=
  fsub 1 (fdiv (of_nat (levenshteinDistance query (substring0 word (length query + 2))))
               (of_nat (length query `max` length word))).

(** The best similarity between a query word and the indexed words, as
    the ranking describes it: 1 when an indexed word of two code units or
    more starts with the query word; otherwise the largest similarity to
    such a word, and 0 when none is above 0. *)
Inductive bestSimilarity (query : jstring) (ws : list jstring) : Q → Prop :=
| best_prefix word :
    word ∈ ws → 2 ≤ length word → query `prefix_of` word →
    bestSimilarity query ws 1
| best_largest f :
    (∀ word, word ∈ ws → 2 ≤ length word → ¬ query `prefix_of` word) →
    (0 <= f)%Q →
    (∀ word, word ∈ ws → 2 ≤ length word → (similarity query word <= f)%Q) →
    (f = 0%Q ∨ ∃ word, word ∈ ws ∧ 2 ≤ length word ∧ f = similarity query word) →
    bestSimilarity query ws f.

(** The tier of one query word, as the ranking describes it: the first
    that applies, in this order; the threshold of the last tier is 0.6 as
    a binary64 number. *)
Inductive tier (lowerName lowerTagline : jstring) (e : IndexEntry) (w : jstring)
    : Z → Prop :=
| tier_name_exact :
    lowerName = w →
    tier lowerName lowerTagline e w 100
| tier_name_prefix :
    lowerName ≠ w → w `prefix_of` lowerName →
    tier lowerName lowerTagline e w 80
| tier_name_infix :
    ¬ w `prefix_of` lowerName → infix_of w lowerName →
    tier lowerName lowerTagline e w 60
| tier_tagline_prefix :
    ¬ infix_of w lowerName → w `prefix_of` lowerTagline →
    tier lowerName lowerTagline e w 40
| tier_tagline_infix :
    ¬ infix_of w lowerName → ¬ w `prefix_of` lowerTagline → infix_of w lowerTagline →
    tier lowerName lowerTagline e w 30
| tier_alternative :
    ¬ infix_of w lowerName → ¬ infix_of w lowerTagline →
    (∃ alt, alt ∈ alternatives e ∧ infix_of w alt) →
    tier lowerName lowerTagline e w 70
| tier_text :
    ¬ infix_of w lowerName → ¬ infix_of w lowerTagline →
    ¬ (∃ alt, alt ∈ alternatives e ∧ infix_of w alt) →
    infix_of w (text e) →
    tier lowerName lowerTagline e w 20
| tier_fuzzy best :
    ¬ infix_of w lowerName → ¬ infix_of w lowerTagline →
    ¬ (∃ alt, alt ∈ alternatives e ∧ infix_of w alt) →
    ¬ infix_of w (text e) →
    bestSimilarity w (words e) best →
    (b64 (6 # 10) < best)%Q →
    tier lowerName lowerTagline e w (Qfloor (fmul best 15))
| tier_none best :
    ¬ infix_of w lowerName → ¬ infix_of w lowerTagline →
    ¬ (∃ alt, alt ∈ alternatives e ∧ infix_of w alt) →
    ¬ infix_of w (text e) →
    bestSimilarity w (words e) best →
    ¬ (b64 (6 # 10) < best)%Q →
    tier lowerName lowerTagline e w 0.


(** The sum of the scores of the words when every one is non-zero, and 0
    otherwise. *)
Definition sum_if_all_match (scores : list Z) : Z :=
  if forallb (λ s, negb (s =? 0)%Z) scores then foldr Z.add 0%Z scores else 0%Z.

(** The words of a string, as splitting at white space describes them:
    the string is white space, then a word (a non-empty run without white
    space that ends the string or is followed by white space), then the
    rest, whose words follow. *)
Inductive words_of : jstring → list jstring → Prop :=
| words_of_end sep :
    Forall (λ c, isWhiteSpace c = true) sep →
    words_of sep []
| words_of_word sep w rest ws :
    Forall (λ c, isWhiteSpace c = true) sep →
    w ≠ [] → Forall (λ c, isWhiteSpace c = false) w →
    (rest = [] ∨ ∃ c rest', rest = c :: rest' ∧ isWhiteSpace c = true) →
    words_of rest ws →
    words_of (sep ++ w ++ rest) (w :: ws).

(** The score of a tool against the words of the current query. *)
Definition scoreOf (v : Vars) (tool : JsVal) : Z :=
  calculateMatchScore (searchIndex v) tool (queryWordsOf (State.query (state v))).

(** A tool passes the category, platform and tag filters. *)
Definition survives (s : State.t) (tool : JsVal) : Prop :=
  (field Tool.category tool = Some (State.category s)
   ∨ State.category s = lit "all" ∨ State.category s = [])
  ∧ (State.platforms s = []
     ∨ ∃ p, p ∈ State.platforms s ∧ p ∈ or_empty (field Tool.platforms tool))
  ∧ (State.tags s = []
     ∨ ∃ t, t ∈ State.tags s ∧ t ∈ or_empty (field Tool.tags tool)).

(** Two filter states agree on the four filter fields. *)
Definition same_filters (s1 s2 : State.t) : Prop :=
  State.query s1 = State.query s2 ∧ State.category s1 = State.category s2
  ∧ State.platforms s1 = State.platforms s2 ∧ State.tags s1 = State.tags s2.

(** The index holds, for every stored tool, the entry built from the
    stored tools (the last tool with that id wins, as in a [Map]). *)
Definition indexOfTools (ts : list JsVal) : gmap (option jstring) IndexEntry :=
  foldl (λ index tool, <[field Tool.id tool := indexEntryOf tool]> index) ∅ ts.

Definition indexed (v : Vars) : Prop :=
  ∀ tool, tool ∈ tools v →
    searchIndex v !! field Tool.id tool = indexOfTools (tools v) !! field Tool.id tool.


(** A browser in which no call throws, one in which the results callback
    always throws, and one in which every call throws. *)
Definition quiet_host : Event → unit → bool * unit := λ _ w, (false, w).

Definition failing_callback_host : Event → unit → bool * unit :=
  λ e w, (match e with OnResults _ _ _ => true | _ => false end, w).

(** Sample data. *)
Definition sample_tool (id name tagline category : string) (platforms alternatives : list string)
    : JsVal :=
  JObj (Tool.mk (Some (lit id)) (Some (lit name)) (Some (lit tagline)) None None
          (Some (lit category)) None (Some (lit <$> platforms)) (Some (lit <$> alternatives))).

Definition gimp : JsVal :=
  sample_tool "gimp" "GIMP" "Image editor" "design" ["linux"; "windows"]%string
    ["Photoshop"]%string.
Definition krita : JsVal :=
  sample_tool "krita" "Krita" "Digital painting" "design" ["linux"]%string
    ["Photoshop"]%string.
Definition vlc : JsVal :=
  sample_tool "vlc" "VLC" "Media player" "media" ["linux"; "android"]%string [].

Definition sample_vars (query category : string) (platforms : list string) : Vars :=
  {| state := State.mk (lit query) (lit category) (lit <$> platforms) [] true;
     tools := [gimp; krita; vlc];
     onResultsCallback := Some 1%N;
     lastProcessedKey := None;
     searchIndex := indexOfTools [gimp; krita; vlc] |}.

Definition failing_announcer_host : Event → unit → bool * unit :=
  λ e w, (match e with AnnounceResults _ _ _ => true | _ => false end, w).

(** The variables of the module change along [R] only, whatever the
    operation is run from. *)
Definition changes {W A} (R : relation Vars) (m : Eff W A) : Prop :=
  ∀ r, R (vars r) (vars (final m r)).

(** Everything but [lastProcessedKey] is the same. *)
Definition same_but_key (v v' : Vars) : Prop :=
  state v' = state v ∧ tools v' = tools v
  ∧ onResultsCallback v' = onResultsCallback v ∧ searchIndex v' = searchIndex v.

(** The calls a search makes from [v] when none of them throws. *)
Definition searchEvents (v : Vars) : list Event :=
  [HideLoadingState]
  ++ match onResultsCallback v with
     | Some cb => [OnResults cb (searchResults v) (metaOf v)]
     | None => []
     end
  ++ [AnnounceResults (length (searchResults v)) (State.query (state v))
        (length (State.platforms (state v)) + length (State.tags (state v)))].

(** The calls of the [catch] block of [performSearch] when none throws. *)
Definition fallbackEvents (v : Vars) : list Event :=
  [ConsoleError; HideLoadingState]
  ++ match onResultsCallback v with
     | Some cb => [OnResults cb (tools v) (metaOf v)]
     | None => []
     end.

(** The results are those of [candidates] with a positive score, the
    higher score first. *)
Definition ranked (v : Vars) (candidates results : list JsVal) : Prop :=
  results ≡ₚ List.filter (λ tool, (0 <? scoreOf v tool)%Z) candidates
  ∧ StronglySorted (λ x y, (scoreOf v y ≤ scoreOf v x)%Z) results.

(** The calls [es] made one after the other, up to the first that throws. *)
Definition calls {W} (host : Event → W → bool * W) (es : list Event) : Eff W unit :=
  forEach es (call host).

(** The elements of [toolsData] that [init] retains, and the variables
    after an initialisation in which nothing throws. *)
Definition retained (toolsData : JsVal) : list JsVal :=
  match toolsData with
  | JArr elems => List.filter validTool elems
  | _ => []
  end.

Definition initialised (toolsData : JsVal) (onResults : option Callback) (v : Vars) : Vars :=
  {| state := set_isInitialized true (state v);
     tools := retained toolsData;
     onResultsCallback := onResults;
     lastProcessedKey := lastProcessedKey v;
     searchIndex := indexOfTools (retained toolsData) |}.

(** No two white-space code units follow each other. *)
Fixpoint single_spaced (s : jstring) : bool :=
  match s with
  | c :: (d :: _) as s' => negb (isWhiteSpace c && isWhiteSpace d) && single_spaced s'
  | _ => true
  end.


(** The filters after [resetAll]. *)
Definition defaultFilters (s : State.t) : State.t :=
  State.mk [] (lit "all") [] [] (State.isInitialized s).

(** Reads an escaped pattern back: a backslash stands for the code unit
    that follows it. *)
Fixpoint unescape (s : jstring) : jstring :=
  match s with
  | [] => []
  | c :: s' =>
      if (c =? 92)%N
      then match s' with
           | [] => [c]
           | d :: s'' => d :: unescape s''
           end
      else c :: unescape s'
  end.

(** Every special character of the pattern follows a backslash, and every
    backslash precedes a special character. *)
Fixpoint well_escaped (s : jstring) : bool :=
  match s with
  | [] => true
  | c :: s' =>
      if (c =? 92)%N
      then match s' with
           | [] => false
           | d :: s'' => isRegExpSpecial d && well_escaped s''
           end
      else negb (isRegExpSpecial c) && well_escaped s'
  end.

(** * Properties *)

(** ** The Levenshtein distance *)

Lemma lev_rec_nil_l b : lev_rec [] b = length b.
Proof. by destruct b. Qed.

Lemma lev_rec_nil_r a : lev_rec a [] = length a.
Proof. by destruct a. Qed.

Lemma lev_rec_cons x a y b :
  lev_rec (x :: a) (y :: b) =
    if decide (y = x) then lev_rec a b
    else min3 (lev_rec a b + 1) (lev_rec a (y :: b) + 1) (lev_rec (x :: a) b + 1).
Proof. reflexivity. Qed.

Lemma align_refl a : align 0 a a.
Proof. induction a; [constructor | by apply align_keep]. Qed.

Lemma align_nil_l b : align (length b) [] b.
Proof. induction b; simpl; [constructor | by apply align_ins]. Qed.

Lemma align_nil_r a : align (length a) a [].
Proof. induction a; simpl; [constructor | by apply align_del]. Qed.

Lemma align_app n m a b c d :
  align n a b → align m c d → align (n + m) (a ++ c) (b ++ d).
Proof.
  intros H1 H2. induction H1; simpl; [done | by constructor ..].
Qed.

Lemma align_reverse n a b : align n a b → align n (reverse a) (reverse b).
Proof.
  induction 1; rewrite ?reverse_cons.
  - constructor.
  - replace n with (n + 0) by lia. apply align_app; [done|]. apply align_keep, align_nil.
  - replace (S n) with (n + 1) by lia. apply align_app; [done|]. apply align_sub, align_nil.
  - replace (S n) with (n + 1) by lia. rewrite <- (app_nil_r (reverse b)).
    apply align_app; [done|]. apply align_del, align_nil.
  - replace (S n) with (n + 1) by lia. rewrite <- (app_nil_r (reverse a)).
    apply align_app; [done|]. apply align_ins, align_nil.
Qed.

Lemma align_trans n a b :
  align n a b → ∀ m c, align m b c → ∃ k, k ≤ n + m ∧ align k a c.
Proof.
  induction 1 as [|n x a b H IH|n x y a b H IH|n x a b H IH|n y a b H IH].
  - intros m c Hc. exists m. split; [lia | done].
  - intros m c Hc. remember (x :: b) as xb eqn:E.
    induction Hc as [|m z b' c Hc IHc|m z w b' c Hc IHc|m z b' c Hc IHc|m w b' c Hc IHc];
      try discriminate.
    + injection E as -> ->. destruct (IH _ _ Hc) as (k & Hk & Hal).
      exists k. split; [lia | by constructor].
    + injection E as -> ->. destruct (IH _ _ Hc) as (k & Hk & Hal).
      exists (S k). split; [lia | by constructor].
    + injection E as -> ->. destruct (IH _ _ Hc) as (k & Hk & Hal).
      exists (S k). split; [lia | by constructor].
    + destruct (IHc E) as (k & Hk & Hal).
      exists (S k). split; [lia | by constructor].
  - intros m c Hc. remember (y :: b) as yb eqn:E.
    induction Hc as [|m z b' c Hc IHc|m z w b' c Hc IHc|m z b' c Hc IHc|m w b' c Hc IHc];
      try discriminate.
    + injection E as -> ->. destruct (IH _ _ Hc) as (k & Hk & Hal).
      exists (S k). split; [lia | by constructor].
    + injection E as -> ->. destruct (IH _ _ Hc) as (k & Hk & Hal).
      exists (S k). split; [lia | by constructor].
    + injection E as -> ->. destruct (IH _ _ Hc) as (k & Hk & Hal).
      exists (S k). split; [lia | by constructor].
    + destruct (IHc E) as (k & Hk & Hal).
      exists (S k). split; [lia | by constructor].
  - intros m c Hc. destruct (IH _ _ Hc) as (k & Hk & Hal).
    exists (S k). split; [lia | by constructor].
  - intros m c Hc. remember (y :: b) as yb eqn:E.
    induction Hc as [|m z b' c Hc IHc|m z w b' c Hc IHc|m z b' c Hc IHc|m w b' c Hc IHc];
      try discriminate.
    + injection E as -> ->. destruct (IH _ _ Hc) as (k & Hk & Hal).
      exists (S k). split; [lia | by constructor].
    + injection E as -> ->. destruct (IH _ _ Hc) as (k & Hk & Hal).
      exists (S k). split; [lia | by constructor].
    + injection E as -> ->. destruct (IH _ _ Hc) as (k & Hk & Hal).
      exists k. split; [lia | done].
    + destruct (IHc E) as (k & Hk & Hal).
      exists (S k). split; [lia | by constructor].
Qed.

Lemma lev_rec_align a : ∀ b, align (lev_rec a b) a b.
Proof.
  induction a as [|x a IHa]; intros b.
  - destruct b; simpl; [constructor | apply (align_ins _ _ [] b), align_nil_l].
  - induction b as [|y b IHb].
    + simpl. apply align_del, align_nil_r.
    + rewrite lev_rec_cons. destruct (decide (y = x)) as [->|Hne].
      * apply align_keep, IHa.
      * assert (Hs := align_sub _ x y _ _ (IHa b)).
        assert (Hd := align_del _ x _ _ (IHa (y :: b))).
        assert (Hi := align_ins _ y _ _ IHb).
        rewrite !Nat.add_1_r. unfold min3.
        destruct (Nat.min_spec (S (lev_rec a (y :: b))) (S (lev_rec (x :: a) b)))
          as [[_ E]|[_ E]]; rewrite E;
        match goal with |- align (?p `min` ?q) _ _ =>
          destruct (Nat.min_spec p q) as [[_ E']|[_ E']]; rewrite E' end; done.
Qed.

Lemma align_length n a b :
  align n a b → length a ≤ length b + n ∧ length b ≤ length a + n.
Proof. induction 1; simpl; lia. Qed.

Lemma lev_rec_min k : ∀ a b n, length a + length b ≤ k → align n a b → lev_rec a b ≤ n.
Proof.
  induction k as [|k IH]; intros a b n Hlen Hal.
  - destruct a, b; simpl in Hlen; try lia. simpl; lia.
  - destruct a as [|x a].
    { apply align_length in Hal. rewrite lev_rec_nil_l. simpl in *. lia. }
    destruct b as [|y b].
    { apply align_length in Hal. rewrite lev_rec_nil_r. simpl in *. lia. }
    simpl in Hlen. rewrite lev_rec_cons. destruct (decide (y = x)) as [->|Hne].
    + inversion Hal as [|? ? ? ? H'|n' ? ? ? ? H'|n' ? ? ? H'|n' ? ? ? H']; subst.
      * apply IH; [lia | done].
      * etrans; [apply (IH a b n'); [lia | done] | lia].
      * destruct (align_trans _ _ _ H' 1 b) as (k' & Hk' & Hal').
        { apply align_del, align_refl. }
        etrans; [apply (IH a b k'); [lia | done] | lia].
      * destruct (align_trans 1 a (x :: a) (align_ins _ _ _ _ (align_refl a)) _ _ H')
          as (k' & Hk' & Hal').
        etrans; [apply (IH a b k'); [lia | done] | lia].
    + unfold min3. inversion Hal as [|? ? ? ? H'|n' ? ? ? ? H'|n' ? ? ? H'|n' ? ? ? H']; subst.
      * done.
      * assert (lev_rec a b ≤ n') by (apply IH; [lia | done]). lia.
      * assert (lev_rec a (y :: b) ≤ n') by (apply IH; [simpl; lia | done]). lia.
      * assert (lev_rec (x :: a) b ≤ n') by (apply IH; [simpl; lia | done]). lia.
Qed.

Lemma edits_trans n m a b c : edits n a b → edits m b c → edits (n + m) a c.
Proof. induction 1; simpl; [done | intros; eapply edits_S; eauto]. Qed.

Lemma edit1_cons x a b : edit1 a b → edit1 (x :: a) (x :: b).
Proof.
  destruct 1 as [l1 c l2|l1 c l2|l1 c c' l2].
  - apply (edit1_ins (x :: l1)).
  - apply (edit1_del (x :: l1)).
  - apply (edit1_sub (x :: l1)).
Qed.

Lemma edits_cons n x a b : edits n a b → edits n (x :: a) (x :: b).
Proof. induction 1; [constructor | eapply edits_S; eauto using edit1_cons]. Qed.

Lemma edit1_sym a b : edit1 a b → edit1 b a.
Proof. destruct 1; constructor. Qed.

Lemma edits_sym n a b : edits n a b → edits n b a.
Proof.
  induction 1 as [|n a b c H1 Hn IH]; [constructor|].
  replace (S n) with (n + 1) by lia.
  eapply edits_trans; [done|]. eapply edits_S; [by apply edit1_sym | constructor].
Qed.

Lemma align_edits n a b : align n a b → edits n a b.
Proof.
  induction 1 as [|n x a b H IH|n x y a b H IH|n x a b H IH|n y a b H IH].
  - constructor.
  - by apply edits_cons.
  - eapply edits_S; [apply (edit1_sub [] x y a) | by apply edits_cons].
  - eapply edits_S; [apply (edit1_del [] x a) | done].
  - eapply edits_S; [apply (edit1_ins [] y a) | by apply edits_cons].
Qed.

Lemma edit1_align a b : edit1 a b → align 1 a b.
Proof.
  destruct 1 as [l1 c l2|l1 c l2|l1 c c' l2];
    apply (align_app 0 1); auto using align_refl, align_ins, align_del, align_sub.
Qed.

Lemma edits_align n a b : edits n a b → ∃ k, k ≤ n ∧ align k a b.
Proof.
  induction 1 as [a|n a b c H1 Hn (k & Hk & IH)].
  - exists 0. split; [lia | apply align_refl].
  - destruct (align_trans _ _ _ (edit1_align _ _ H1) _ _ IH) as (k' & Hk' & Hal).
    exists k'. split; [lia | done].
Qed.

Section dp.
Variables a b : jstring.

Local Abbreviation D := (dp_cell a b).
Local Abbreviation row := (dp_row a b).
Local Abbreviation st := (dp_matrix a b).

Lemma D_0_l j : j ≤ length a → D 0 j = j.
Proof.
  intros. unfold dp_cell. rewrite take_0, lev_rec_nil_r, length_reverse, length_take. lia.
Qed.

Lemma D_0_r i : i ≤ length b → D i 0 = i.
Proof.
  intros. unfold dp_cell. rewrite take_0, lev_rec_nil_l, length_reverse, length_take. lia.
Qed.

Lemma D_step i j x y :
  b !! i = Some y → a !! j = Some x →
  D (S i) (S j) =
    if decide (y = x) then D i j
    else min3 (D i j + 1) (D (S i) j + 1) (D i (S j) + 1).
Proof.
  intros Hb Ha. unfold dp_cell.
  rewrite (take_S_r _ _ _ Hb), (take_S_r _ _ _ Ha), !reverse_snoc.
  apply lev_rec_cons.
Qed.

Lemma lookup_st i j r : r ≤ length b → st i j !! r = Some (row i j r).
Proof.
  intros. unfold dp_matrix. rewrite list_lookup_fmap, lookup_seq_lt by lia. done.
Qed.

Lemma mget_st_done i j r c :
  r < i → r ≤ length b → c ≤ length a → mget (st i j) r c = D r c.
Proof.
  intros. unfold mget. rewrite lookup_st by done. simpl.
  unfold dp_row. rewrite decide_True by done.
  rewrite list_lookup_fmap, lookup_seq_lt by lia. done.
Qed.

Lemma mget_st_cur i j c :
  i ≤ length b → c < j → mget (st i j) i c = D i c.
Proof.
  intros. unfold mget. rewrite lookup_st by done. simpl.
  unfold dp_row. rewrite decide_False, decide_True by lia.
  rewrite list_lookup_fmap, lookup_seq_lt by lia. done.
Qed.

Lemma mset_st i j : i ≤ length b → mset (st i j) i j (D i j) = st i (S j).
Proof.
  intros Hi. unfold mset. apply list_eq. intros r.
  destruct (decide (r ≤ length b)) as [Hr|Hr].
  - destruct (decide (r = i)) as [->|Hne].
    + rewrite list_lookup_alter_eq, !lookup_st by done. simpl. f_equal.
      unfold dp_row. rewrite !(decide_False (P := i < i)), !decide_True by lia.
      unfold js_store. rewrite length_fmap, length_seq, decide_False by lia.
      rewrite Nat.sub_diag, seq_S, fmap_app. done.
    + rewrite list_lookup_alter_ne, !lookup_st by done. f_equal.
      unfold dp_row. repeat case_decide; done || lia.
  - rewrite !(lookup_ge_None_2 (st _ _)), lookup_ge_None_2; try done;
      rewrite ?length_alter; unfold dp_matrix; rewrite length_fmap, length_seq; lia.
Qed.

Lemma st_next_row i : st i (S (length a)) = st (S i) 1.
Proof.
  unfold dp_matrix. apply list_fmap_ext. intros k r Hr.
  apply lookup_seq in Hr as [-> Hr]. simpl in *.
  unfold dp_row. repeat case_decide; try done; try lia.
  all: subst; simpl; rewrite D_0_r by lia; done.
Qed.
End dp.

Section dp_loops.
Variables a b : jstring.

Local Abbreviation D := (dp_cell a b).
Local Abbreviation st := (dp_matrix a b).
Local Abbreviation body := (inner_body a b).

Lemma inner_body_st i j :
  1 ≤ i ≤ length b → 1 ≤ j ≤ length a →
  body i (st i j) j = st i (S j).
Proof.
  intros Hi Hj. unfold inner_body.
  destruct i as [|i]; [lia|]. destruct j as [|j]; [lia|].
  replace (S i - 1) with i by lia. replace (S j - 1) with j by lia.
  destruct (lookup_lt_is_Some_2 b i) as [y Hy]; [lia|].
  destruct (lookup_lt_is_Some_2 a j) as [x Hx]; [lia|].
  rewrite <- (mset_st a b (S i) (S j)) by lia. rewrite (D_step _ _ _ _ _ _ Hy Hx).
  rewrite Hy, Hx.
  rewrite (mget_st_done _ _ _ _ i j), (mget_st_done _ _ _ _ i (S j)), mget_st_cur by lia.
  destruct (decide (y = x)) as [->|Hne].
  - rewrite decide_True by done. done.
  - rewrite decide_False by congruence. done.
Qed.

Lemma inner_loop_st i n : ∀ j,
  1 ≤ i ≤ length b → 1 ≤ j → j + n ≤ S (length a) →
  foldl (body i) (st i j) (seq j n) = st i (j + n).
Proof.
  induction n as [|n IH]; intros j Hi Hj Hn; simpl.
  - by rewrite Nat.add_0_r.
  - rewrite inner_body_st, IH by lia. f_equal. lia.
Qed.

Lemma outer_loop_st n : ∀ i,
  1 ≤ i → i + n ≤ S (length b) →
  foldl (λ m i, foldl (body i) m (seq 1 (length a))) (st i 1) (seq i n)
  = st (i + n) 1.
Proof.
  induction n as [|n IH]; intros i Hi Hn; simpl.
  - by rewrite Nat.add_0_r.
  - rewrite inner_loop_st by lia. rewrite (Nat.add_comm 1), Nat.add_1_r, st_next_row.
    rewrite IH by lia. f_equal. lia.
Qed.

Lemma init_rows n :
  foldl (λ (m : list (list nat)) i, js_store [] m i [i]) [] (seq 0 n) = (λ i, [i]) <$> seq 0 n.
Proof.
  induction n as [|n IH]; [done|].
  rewrite seq_S, foldl_app, IH, fmap_app. simpl.
  unfold js_store. rewrite length_fmap, length_seq, decide_False, Nat.sub_diag by lia. done.
Qed.

Lemma init_row0 n :
  1 ≤ length b → n ≤ length a →
  foldl (λ m j, mset m 0 j j) ((λ i, [i]) <$> seq 0 (S (length b))) (seq 0 (S n))
  = st 0 (S n).
Proof.
  intros Hb. induction n as [|n IH]; intros Hn.
  - simpl. unfold dp_matrix. simpl. f_equal.
    apply list_fmap_ext. intros k r Hr. apply lookup_seq in Hr as [-> Hr].
    unfold dp_row. repeat case_decide; done || lia.
  - rewrite (seq_S (S n)), foldl_app, IH by lia. simpl.
    rewrite <- (mset_st a b 0 (S n)) by lia. by rewrite D_0_l by lia.
Qed.

Lemma levenshteinDistance_lev_rec :
  levenshteinDistance a b = lev_rec (reverse a) (reverse b).
Proof.
  unfold levenshteinDistance.
  destruct (decide (length a = 0)) as [Ha|Ha].
  { apply nil_length_inv in Ha as ->. by rewrite reverse_nil, lev_rec_nil_l, length_reverse. }
  destruct (decide (length b = 0)) as [Hb|Hb].
  { apply nil_length_inv in Hb as ->. by rewrite reverse_nil, lev_rec_nil_r, length_reverse. }
  cbv zeta. rewrite init_rows, init_row0 by lia.
  rewrite st_next_row.
  change (foldl _ (st 1 1) (seq 1 (length b)))
    with (foldl (λ m i, foldl (body i) m (seq 1 (length a))) (st 1 1) (seq 1 (length b))).
  rewrite outer_loop_st by lia.
  rewrite mget_st_done by lia. unfold dp_cell. by rewrite !take_ge by lia.
Qed.
End dp_loops.

(** C3: [levenshteinDistance a b] is the edit distance of [a] and [b]: [a]
    can be transformed into [b] by that many single-character insertions,
    deletions and substitutions and by no fewer; hence it is 0 exactly
    when the strings are equal, and it is symmetric. *)
Theorem levenshteinDistance_is_edit_distance a b :
  edits (levenshteinDistance a b) a b ∧
  (∀ n, edits n a b → levenshteinDistance a b ≤ n) ∧
  (levenshteinDistance a b = 0 ↔ a = b) ∧
  levenshteinDistance a b = levenshteinDistance b a.
Proof.
  assert (Hup : ∀ a b, edits (levenshteinDistance a b) a b).
  { intros a' b'. rewrite levenshteinDistance_lev_rec. apply align_edits.
    rewrite <- (reverse_involutive a') at 2. rewrite <- (reverse_involutive b') at 2.
    apply align_reverse, lev_rec_align. }
  assert (Hlo : ∀ a b n, edits n a b → levenshteinDistance a b ≤ n).
  { intros a' b' n (k & Hk & Hal)%edits_align. rewrite levenshteinDistance_lev_rec.
    etrans; [|exact Hk]. eapply lev_rec_min; [done | by apply align_reverse]. }
  repeat split; auto.
  - intros H0. specialize (Hup a b). rewrite H0 in Hup. by inversion Hup.
  - intros ->. specialize (Hlo b b 0 (edits_O b)). lia.
  - apply Nat.le_antisymm; apply Hlo, edits_sym, Hup.
Qed.

(** ** Strings *)

Lemma startsWith_prefix s w : startsWith s w = true ↔ w `prefix_of` s.
Proof.
  revert s. induction w as [|c w IH]; intros s.
  - split; [intros _; apply prefix_nil | by destruct s].
  - destruct s as [|d s]; simpl.
    + split; [done | intros H; by apply prefix_nil_inv in H].
    + rewrite andb_true_iff, N.eqb_eq, IH. split.
      * intros [-> H]. by apply prefix_cons.
      * intros H. split; [by apply prefix_cons_inv_1 in H | by apply prefix_cons_inv_2 in H].
Qed.

Lemma includes_infix s w : includes s w = true ↔ infix_of w s.
Proof.
  induction s as [|d s IH]; cbn [includes].
  - rewrite orb_false_r, startsWith_prefix. split.
    + intros [k ->]. by exists [], k.
    + intros (l1 & l2 & H). symmetry in H.
      apply app_eq_nil in H as [-> H]. apply app_eq_nil in H as [-> ->]. done.
  - rewrite orb_true_iff, IH, startsWith_prefix. split.
    + intros [[k ->]|(l1 & l2 & ->)].
      * by exists [], k.
      * by exists (d :: l1), l2.
    + intros (l1 & l2 & H). destruct l1 as [|d' l1]; simpl in H.
      * left. by exists l2.
      * right. injection H as -> ->. by exists l1, l2.
Qed.

Lemma prefix_infix w s : w `prefix_of` s → infix_of w s.
Proof. intros [k ->]. by exists [], k. Qed.

Lemma includes_false_infix s w : includes s w = false ↔ ¬ infix_of w s.
Proof. rewrite <- includes_infix. by destruct (includes s w). Qed.

Lemma startsWith_false_prefix s w : startsWith s w = false ↔ ¬ w `prefix_of` s.
Proof. rewrite <- startsWith_prefix. by destruct (startsWith s w). Qed.

Lemma existsb_includes (alts : list jstring) w :
  existsb (λ alt, includes alt w) alts = true ↔ ∃ alt, alt ∈ alts ∧ infix_of w alt.
Proof.
  rewrite existsb_exists. split; intros (alt & H1 & H2); exists alt.
  - by rewrite list_elem_of_In, <- includes_infix.
  - by rewrite <- list_elem_of_In, includes_infix.
Qed.

Lemma Qltb_lt x y : Qltb x y = true ↔ (x < y)%Q.
Proof.
  unfold Qltb. rewrite negb_true_iff. split.
  - intros H. apply Qnot_le_lt. intros Hle. apply Qle_bool_iff in Hle. congruence.
  - intros H. destruct (Qle_bool y x) eqn:E; [|done].
    apply Qle_bool_iff in E. by apply Qlt_not_le in H.
Qed.

(** ** The fuzzy score *)

Lemma fuzzyMatch_from_cons query best word ws :
  fuzzyMatch_from query best (word :: ws) =
    if length word <? 2 then fuzzyMatch_from query best ws
    else if startsWith word query then 1%Q
    else fuzzyMatch_from query
           (if Qltb best (similarity query word) then similarity query word else best) ws.
Proof. unfold similarity. cbn [fuzzyMatch_from]. cbv zeta. reflexivity. Qed.

Section fuzzy.
#[local] Opaque b64 levenshteinDistance similarity.

Lemma fuzzyMatch_from_best query ws : ∀ best,
  (∀ word, word ∈ ws → 2 ≤ length word → startsWith word query = false) →
  (best <= fuzzyMatch_from query best ws)%Q
  ∧ (∀ word, word ∈ ws → 2 ≤ length word →
       (similarity query word <= fuzzyMatch_from query best ws)%Q)
  ∧ (fuzzyMatch_from query best ws = best
     ∨ ∃ word, word ∈ ws ∧ 2 ≤ length word
         ∧ fuzzyMatch_from query best ws = similarity query word).
Proof.
  induction ws as [|word ws IH]; intros best Hno; [cbn [fuzzyMatch_from] | rewrite fuzzyMatch_from_cons].
  - split; [apply Qle_refl|]. split; [by intros ? ?%elem_of_nil | by left].
  - assert (Hno' : ∀ w, w ∈ ws → 2 ≤ length w → startsWith w query = false).
    { intros w Hw. apply Hno. by right. }
    destruct (length word <? 2) eqn:El.
    { apply Nat.ltb_lt in El. destruct (IH best Hno') as (H1 & H2 & H3).
      split; [done|]. split.
      - intros w [->|Hw]%elem_of_cons Hlen; [lia | by apply H2].
      - destruct H3 as [H3|(w & Hw & Hl & H3)]; [by left|].
        right. exists w. split; [by right | done]. }
    apply Nat.ltb_ge in El. rewrite (Hno word) by (done || by left).
    set (best' := if Qltb best (similarity query word) then similarity query word else best).
    assert (Hb : (best <= best')%Q ∧ (similarity query word <= best')%Q
                 ∧ (best' = best ∨ best' = similarity query word)).
    { unfold best'. destruct (Qltb best _) eqn:E.
      - apply Qltb_lt in E. split; [by apply Qlt_le_weak|]. split; [apply Qle_refl | by right].
      - split; [apply Qle_refl|]. split; [|by left].
        destruct (Qlt_le_dec best (similarity query word)) as [Hlt|Hle]; [|done].
        apply Qltb_lt in Hlt. congruence. }
    destruct Hb as (Hb1 & Hb2 & Hb3).
    destruct (IH best' Hno') as (H1 & H2 & H3).
    split; [by eapply Qle_trans|]. split.
    + intros w [->|Hw]%elem_of_cons Hlen; [by eapply Qle_trans | by apply H2].
    + destruct H3 as [H3|(w & Hw & Hl & H3)].
      * rewrite H3. destruct Hb3 as [->| ->]; [by left|].
        right. exists word. split; [by left | done].
      * right. exists w. split; [by right | done].
Qed.
Lemma fuzzyMatch_from_prefix query ws : ∀ best word,
  word ∈ ws → 2 ≤ length word → startsWith word query = true →
  fuzzyMatch_from query best ws = 1%Q.
Proof.
  induction ws as [|w ws IH]; intros best word Hin Hlen Hsw; [by apply elem_of_nil in Hin|].
  rewrite fuzzyMatch_from_cons. apply elem_of_cons in Hin as [<-|Hin].
  - rewrite (proj2 (Nat.ltb_ge _ _)) by lia. by rewrite Hsw.
  - destruct (length w <? 2); [by eapply IH|].
    destruct (startsWith w query); [done | by eapply IH].
Qed.

Lemma fuzzyMatch_bestSimilarity query ws : bestSimilarity query ws (fuzzyMatch query ws).
Proof.
  destruct (existsb (λ word, (2 <=? length word) && startsWith word query) ws) eqn:E.
  - apply existsb_exists in E as (word & Hin & [Hlen Hsw]%andb_prop).
    apply list_elem_of_In in Hin. apply Nat.leb_le in Hlen.
    unfold fuzzyMatch. rewrite (fuzzyMatch_from_prefix query ws 0 word) by assumption.
    apply (best_prefix query ws word); [assumption | assumption | by apply startsWith_prefix].
  - assert (∀ word, word ∈ ws → 2 ≤ length word → startsWith word query = false) as Hno.
    { intros word Hin Hlen. destruct (startsWith word query) eqn:Hsw; [|reflexivity].
      assert (existsb (λ word, (2 <=? length word) && startsWith word query) ws = true) as E'.
      { apply existsb_exists. exists word. split; [by apply list_elem_of_In|].
        rewrite Hsw, (proj2 (Nat.leb_le _ _)) by assumption. reflexivity. }
      rewrite E in E'. discriminate. }
    destruct (fuzzyMatch_from_best query ws 0 Hno) as (H1 & H2 & H3).
    apply best_largest; try assumption.
    intros word Hin Hlen. apply startsWith_false_prefix. by apply Hno.
Qed.

(** The best similarity is determined, as a number. *)
Lemma bestSimilarity_unique query ws f1 f2 :
  bestSimilarity query ws f1 → bestSimilarity query ws f2 → (f1 == f2)%Q.
Proof.
  assert (∀ f g, bestSimilarity query ws f → bestSimilarity query ws g → (f <= g)%Q) as Hle.
  { intros f g [word Hin Hlen Hp|f' Hno H0 Hall Hf] [word' Hin' Hlen' Hp'|g' Hno' H0' Hall' Hg].
    - apply Qle_refl.
    - exfalso. by eapply Hno'.
    - exfalso. by eapply Hno.
    - destruct Hf as [->|(word & Hin & Hlen & ->)]; [assumption | by apply Hall']. }
  intros H1 H2. apply Qle_antisym; by apply Hle.
Qed.
End fuzzy.

(** ** The score of a tool *)

Lemma wordScore_tier lowerName lowerTagline e w :
  tier lowerName lowerTagline e w (wordScore lowerName lowerTagline e w).
Proof.
  unfold wordScore.
  case_bool_decide as Hn; [by constructor|].
  destruct (startsWith lowerName w) eqn:E1.
  { apply startsWith_prefix in E1. by constructor. }
  apply startsWith_false_prefix in E1.
  destruct (includes lowerName w) eqn:E2.
  { apply includes_infix in E2. by constructor. }
  apply includes_false_infix in E2.
  destruct (startsWith lowerTagline w) eqn:E3.
  { apply startsWith_prefix in E3. by constructor. }
  apply startsWith_false_prefix in E3.
  destruct (includes lowerTagline w) eqn:E4.
  { apply includes_infix in E4. by constructor. }
  apply includes_false_infix in E4.
  destruct (existsb _ (alternatives e)) eqn:E5.
  { apply existsb_includes in E5. by constructor. }
  assert (¬ ∃ alt, alt ∈ alternatives e ∧ infix_of w alt) as E5'.
  { rewrite <- existsb_includes. congruence. }
  destruct (includes (text e) w) eqn:E6.
  { apply includes_infix in E6. by constructor. }
  apply includes_false_infix in E6.
  cbv zeta. pose proof (fuzzyMatch_bestSimilarity w (words e)) as Hbest.
  unfold FUZZY_THRESHOLD. destruct (Qltb _ _) eqn:E7.
  { apply Qltb_lt in E7. apply tier_fuzzy; assumption. }
  apply (tier_none _ _ _ _ (fuzzyMatch w (words e))); try assumption.
  rewrite <- Qltb_lt, E7. discriminate.
Qed.


Lemma calculateMatchScore_from_sum lowerName lowerTagline e ws : ∀ total,
  calculateMatchScore_from lowerName lowerTagline e total ws =
    if forallb (λ s, negb (s =? 0)%Z) (map (wordScore lowerName lowerTagline e) ws)
    then (total + foldr Z.add 0 (map (wordScore lowerName lowerTagline e) ws))%Z
    else 0%Z.
Proof.
  induction ws as [|w ws IH]; intros total; simpl.
  - lia.
  - destruct (wordScore lowerName lowerTagline e w =? 0)%Z; simpl; [done|].
    rewrite IH. destruct (forallb _ _); lia.
Qed.

(** C2: for a tool found in the search index and a non-empty list of query
    words, [calculateMatchScore] gives every word the score of its tier
    (100 exact name, 80 name prefix, 60 name substring, 40 tagline prefix,
    30 tagline substring, 70 substring of an alternative, 20 substring of
    the indexed text, the floor of 15 times the best fuzzy similarity to
    the indexed words when that exceeds 0.6, 0 otherwise) and returns the
    sum of these scores, or 0 as soon as one word scores 0. *)
Theorem calculateMatchScore_sums_tiers
    (index : gmap (option jstring) IndexEntry) (tool : JsVal) (e : IndexEntry)
    (queryWords : list jstring) :
  truthy tool = true →
  index !! field Tool.id tool = Some e →
  queryWords ≠ [] →
  ∃ scores,
    Forall2 (tier (toLowerCase (or_empty (field Tool.name tool)))
                  (toLowerCase (or_empty (field Tool.tagline tool))) e)
            queryWords scores
    ∧ calculateMatchScore index tool queryWords = sum_if_all_match scores
    ∧ (0%Z ∈ scores → calculateMatchScore index tool queryWords = 0%Z).
Proof.
  intros Ht Hi Hq.
  set (ln := toLowerCase (or_empty (field Tool.name tool))).
  set (lt := toLowerCase (or_empty (field Tool.tagline tool))).
  exists (map (wordScore ln lt e) queryWords).
  assert (Hcalc : calculateMatchScore index tool queryWords
                  = sum_if_all_match (map (wordScore ln lt e) queryWords)).
  { unfold calculateMatchScore. rewrite Ht, Hi. cbn [negb orb].
    rewrite bool_decide_false by (by destruct queryWords).
    fold ln lt. rewrite calculateMatchScore_from_sum. unfold sum_if_all_match.
    by destruct (forallb _ _). }
  split; [|split].
  - apply Forall2_fmap_r, Forall_Forall2_diag, Forall_forall.
    intros w _. apply wordScore_tier.
  - done.
  - intros H0. rewrite Hcalc. unfold sum_if_all_match.
    destruct (forallb _ _) eqn:E; [|done].
    rewrite forallb_forall in E. apply list_elem_of_In, E in H0. done.
Qed.

Lemma calculateMatchScore_sums_tiers_witness :
  ∃ scores,
    Forall2 (tier (toLowerCase (or_empty (field Tool.name gimp)))
                  (toLowerCase (or_empty (field Tool.tagline gimp))) (indexEntryOf gimp))
            [lit "gimp"; lit "imige"] scores
    ∧ calculateMatchScore (indexOfTools [gimp; krita; vlc]) gimp [lit "gimp"; lit "imige"]
      = sum_if_all_match scores
    ∧ (0%Z ∈ scores →
       calculateMatchScore (indexOfTools [gimp; krita; vlc]) gimp [lit "gimp"; lit "imige"]
       = 0%Z).
Proof.
  apply (calculateMatchScore_sums_tiers (indexOfTools [gimp; krita; vlc]) gimp
           (indexEntryOf gimp) [lit "gimp"; lit "imige"]).
  - reflexivity.
  - vm_compute. reflexivity.
  - discriminate.
Defined.


(** ** Sorting *)

Section sorting.
Context {A : Type} (key : A → Z).

Local Abbreviation by_key_desc := (λ a b : A, (key b - key a)%Z).

Lemma sort_insert_perm (cmp : A → A → Z) x l : sort_insert cmp x l ≡ₚ x :: l.
Proof.
  induction l as [|y l IH]; simpl; [done|].
  destruct (cmp x y <=? 0)%Z; [done|]. by rewrite IH, Permutation_swap.
Qed.

Lemma js_sort_perm (cmp : A → A → Z) l : js_sort cmp l ≡ₚ l.
Proof.
  induction l as [|x l IH]; simpl; [done|]. by rewrite sort_insert_perm, IH.
Qed.

Lemma sort_insert_sorted x l :
  StronglySorted (λ a b, (key b ≤ key a)%Z) l →
  StronglySorted (λ a b, (key b ≤ key a)%Z) (sort_insert by_key_desc x l).
Proof.
  induction 1 as [|y l Hl IH Hy]; simpl.
  - repeat constructor.
  - destruct (key y - key x <=? 0)%Z eqn:E.
    + apply Z.leb_le in E. constructor; [by constructor|].
      constructor; [lia|]. eapply Forall_impl; [exact Hy|]. simpl. intros; lia.
    + apply Z.leb_gt in E. constructor; [done|].
      rewrite sort_insert_perm. constructor; [lia | done].
Qed.

Lemma js_sort_sorted l :
  StronglySorted (λ a b, (key b ≤ key a)%Z) (js_sort by_key_desc l).
Proof.
  induction l as [|x l IH]; simpl; [constructor | by apply sort_insert_sorted].
Qed.

Lemma sort_insert_stable z x l :
  List.filter (λ a, (key a =? z)%Z) (sort_insert by_key_desc x l)
  = List.filter (λ a, (key a =? z)%Z) (x :: l).
Proof.
  induction l as [|y l IH]; [done|].
  cbn [sort_insert]. destruct (key y - key x <=? 0)%Z eqn:E; [done|].
  apply Z.leb_gt in E. cbn [List.filter] in *. rewrite IH.
  destruct (key x =? z)%Z eqn:Ex, (key y =? z)%Z eqn:Ey; try done. lia.
Qed.

Lemma js_sort_stable z l :
  List.filter (λ a, (key a =? z)%Z) (js_sort by_key_desc l)
  = List.filter (λ a, (key a =? z)%Z) l.
Proof.
  induction l as [|x l IH]; [done|].
  cbn [js_sort foldr]. rewrite sort_insert_stable. cbn [List.filter].
  fold (js_sort by_key_desc l). by rewrite IH.
Qed.
End sorting.

Lemma filter_map_pair {A} (f : A → Z) (p : Z → bool) (l : list A) :
  List.filter (λ item : A * Z, p item.2) (map (λ x, (x, f x)) l)
  = map (λ x, (x, f x)) (List.filter (λ x, p (f x)) l).
Proof.
  induction l as [|x l IH]; simpl; [done|]. destruct (p (f x)); simpl; by rewrite IH.
Qed.

Lemma filter_map_fst {A} (f : A → Z) (p : Z → bool) (items : list (A * Z)) :
  Forall (λ item, item.2 = f item.1) items →
  List.filter (λ x, p (f x)) (map fst items)
  = map fst (List.filter (λ item : A * Z, p item.2) items).
Proof.
  induction 1 as [|[x z] items Hx H IH]; simpl in *; [done|]. subst z.
  destruct (p (f x)); simpl; by rewrite IH.
Qed.

(** What [filterByQuery] returns for a query that is not empty. *)
Lemma filterByQuery_spec index s results :
  State.query s ≠ [] →
  let score := (λ tool, calculateMatchScore index tool (queryWordsOf (State.query s))) in
  (filterByQuery index s results ≡ₚ List.filter (λ tool, (0 <? score tool)%Z) results
   ∧ StronglySorted (λ x y, (score y ≤ score x)%Z) (filterByQuery index s results)
   ∧ ∀ z, List.filter (λ tool, (score tool =? z)%Z) (filterByQuery index s results)
          = List.filter (λ tool, (score tool =? z)%Z)
              (List.filter (λ tool, (0 <? score tool)%Z) results)).
Proof.
  intros Hq score. unfold filterByQuery.
  rewrite bool_decide_false by done.
  assert ((MIN_SEARCH_LENGTH <=? length (State.query s)) = true) as ->.
  { apply Nat.leb_le. unfold MIN_SEARCH_LENGTH. destruct (State.query s); simpl; [done | lia]. }
  cbn [negb andb]. cbv zeta. fold score.
  rewrite (filter_map_pair score (λ z, (0 <? z)%Z)).
  set (pos := List.filter (λ tool, (0 <? score tool)%Z) results).
  set (sorted := js_sort (λ a b : JsVal * Z, (b.2 - a.2)%Z) (map (λ x, (x, score x)) pos)).
  assert (Hperm : sorted ≡ₚ map (λ x, (x, score x)) pos) by apply js_sort_perm.
  assert (Hall : Forall (λ item : JsVal * Z, item.2 = score item.1) sorted).
  { rewrite Hperm. by apply Forall_fmap, Forall_true. }
  split; [|split].
  - rewrite Hperm, map_map. simpl. by rewrite map_id.
  - assert (Hs := js_sort_sorted (A := JsVal * Z) snd (map (λ x, (x, score x)) pos)).
    fold sorted in Hs. clearbody sorted. clear Hperm.
    induction Hs as [|[x z] l Hl IH Hx]; simpl; [constructor|].
    apply Forall_cons in Hall as [Hz Hall]. simpl in Hz. subst z.
    constructor; [by apply IH|].
    apply Forall_fmap, Forall_forall. intros [y z] Hin.
    assert (H1 := proj1 (Forall_forall _ _) Hx _ Hin).
    assert (H2 := proj1 (Forall_forall _ _) Hall _ Hin).
    simpl in *. by subst z.
  - intros z. rewrite (filter_map_fst score (λ s, (s =? z)%Z)) by done.
    unfold sorted. rewrite (js_sort_stable (A := JsVal * Z) snd).
    rewrite <- (filter_map_fst score (λ s, (s =? z)%Z)) by (by apply Forall_fmap, Forall_true).
    by rewrite map_map, map_id.
Qed.

(** ** Running an operation *)

Section running.
Context {W : Type} (host : Event → W → bool * W).

Lemma run_bind {A B} (m : Eff W A) (k : A → Eff W B) r :
  (m ≫= k) r =
    match m r with
    | (Normal a, r1, ev1) => let '(c, r2, ev2) := k a r1 in (c, r2, ev1 ++ ev2)
    | (Thrown, r1, ev1) => (Thrown, r1, ev1)
    end.
Proof. reflexivity. Qed.

Lemma run_get {B} (k : Vars → Eff W B) r : (get ≫= k) r = k (vars r) r.
Proof. rewrite run_bind. simpl. by destruct (k (vars r) r) as [[c r2] ev2]. Qed.

Lemma run_modify {B} (f : Vars → Vars) (k : Eff W B) r :
  (modify f ≫= λ _, k) r = k (mkRun (f (vars r)) (world r)).
Proof. rewrite run_bind. simpl. by destruct (k _) as [[c r2] ev2]. Qed.

Lemma run_ret {A B} (a : A) (k : A → Eff W B) r : (mret a ≫= k) r = k a r.
Proof. rewrite run_bind. simpl. by destruct (k a r) as [[c r2] ev2]. Qed.

Lemma run_call e r :
  call host e r =
    ((if (host e (world r)).1 then Thrown else Normal ()),
     mkRun (vars r) (host e (world r)).2, [e]).
Proof. unfold call. by destruct (host e (world r)). Qed.

Lemma run_call_bind {B} e (k : Eff W B) r :
  (call host e ≫= λ _, k) r =
    if (host e (world r)).1
    then (Thrown, mkRun (vars r) (host e (world r)).2, [e])
    else let '(c, r2, ev2) := k (mkRun (vars r) (host e (world r)).2) in (c, r2, e :: ev2).
Proof. rewrite run_bind, run_call. by destruct (host e (world r)).1. Qed.

Lemma run_try_catch {A} (body handler : Eff W A) r :
  try_catch body handler r =
    match body r with
    | (Normal a, r1, ev1) => (Normal a, r1, ev1)
    | (Thrown, r1, ev1) => let '(c, r2, ev2) := handler r1 in (c, r2, ev1 ++ ev2)
    end.
Proof. reflexivity. Qed.

End running.

(** ** Frames *)

Section frames.
Context {W : Type} (host : Event → W → bool * W).
Context (R : relation Vars) `{!Reflexive R, !Transitive R}.

Lemma changes_ret {A} (a : A) : changes (W := W) R (mret a).
Proof. intros r. apply reflexivity. Qed.

Lemma changes_get : changes (W := W) R get.
Proof. intros r. apply reflexivity. Qed.

Lemma changes_throw {A} : changes (W := W) (A := A) R throw.
Proof. intros r. apply reflexivity. Qed.

Lemma changes_call e : changes R (call host e).
Proof. intros r. unfold final. rewrite run_call. apply reflexivity. Qed.

Lemma changes_modify f : (∀ v, R v (f v)) → changes (W := W) R (modify f).
Proof. intros H r. apply H. Qed.

Lemma changes_bind {A B} (m : Eff W A) (k : A → Eff W B) :
  changes R m → (∀ a, changes R (k a)) → changes R (m ≫= k).
Proof.
  intros Hm Hk r. specialize (Hm r). unfold final in *. rewrite run_bind.
  destruct (m r) as [[[a|] r1] ev1]; simpl in *; [|done].
  specialize (Hk a r1). unfold final in Hk.
  destruct (k a r1) as [[c r2] ev2]; simpl in *. by etrans.
Qed.

Lemma changes_try_catch {A} (body handler : Eff W A) :
  changes R body → changes R handler → changes R (try_catch body handler).
Proof.
  intros Hb Hh r. specialize (Hb r). unfold final in *. rewrite run_try_catch.
  destruct (body r) as [[[a|] r1] ev1]; simpl in *; [done|].
  specialize (Hh r1). unfold final in Hh.
  destruct (handler r1) as [[c r2] ev2]; simpl in *. by etrans.
Qed.

Lemma changes_forEach {A} (l : list A) (f : A → Eff W unit) :
  (∀ x, changes R (f x)) → changes R (forEach l f).
Proof.
  intros Hf. induction l as [|x l IH]; simpl.
  - apply changes_ret.
  - apply changes_bind; [apply Hf | intros _; apply IH].
Qed.
End frames.

(** ** The search *)

Section search.
Context {W : Type} (host : Event → W → bool * W).

Lemma calls_nil r : calls host [] r = (Normal (), r, []).
Proof. done. Qed.

Lemma calls_cons e es r :
  calls host (e :: es) r =
    if (host e (world r)).1
    then (Thrown, mkRun (vars r) (host e (world r)).2, [e])
    else let '(c, r2, ev2) := calls host es (mkRun (vars r) (host e (world r)).2) in
         (c, r2, e :: ev2).
Proof. unfold calls. cbn [forEach]. apply run_call_bind. Qed.

Lemma calls_vars es : ∀ r, vars (final (calls host es) r) = vars r.
Proof.
  induction es as [|e es IH]; intros r; [done|].
  unfold final. rewrite calls_cons. destruct (host e (world r)).1; [done|].
  specialize (IH (mkRun (vars r) (host e (world r)).2)). unfold final in IH.
  by destruct (calls host es _) as [[c r2] ev2].
Qed.

Lemma calls_events es : ∀ r,
  events (calls host es) r `prefix_of` es
  ∧ (completion (calls host es) r = Normal () → events (calls host es) r = es).
Proof.
  induction es as [|e es IH]; intros r.
  { split; done. }
  unfold events, completion. rewrite calls_cons. destruct (host e (world r)).1.
  { split; [by apply prefix_cons, prefix_nil | done]. }
  specialize (IH (mkRun (vars r) (host e (world r)).2)). unfold events, completion in IH.
  destruct (calls host es _) as [[c r2] ev2]. simpl in *. destruct IH as [IH1 IH2].
  split; [by apply prefix_cons | intros Hc; by rewrite IH2].
Qed.

Lemma performSearch_try_calls r :
  performSearch_try host r =
    if bool_decide (Some (searchKeyOf (state (vars r))) = lastProcessedKey (vars r))
    then calls host [HideLoadingState] r
    else calls host (searchEvents (vars r))
           (mkRun (with_lastProcessedKey (Some (searchKeyOf (state (vars r)))) (vars r))
                  (world r)).
Proof.
  unfold performSearch_try. rewrite run_get. case_bool_decide.
  - rewrite calls_cons. unfold hideLoadingState. rewrite run_call.
    destruct (host _ _) as [[] w]; done.
  - rewrite run_modify. cbv zeta. unfold searchEvents, hideLoadingState.
    cbn [app]. rewrite calls_cons, run_call_bind. cbn [vars world].
    destruct (host HideLoadingState (world r)) as [[] w1]; [done|]. cbn [fst snd].
    unfold notifyResults, announceResults.
    rewrite run_bind, run_get. cbn [vars world onResultsCallback with_lastProcessedKey].
    destruct (onResultsCallback (vars r)) as [cb|]; cbn [app].
    + rewrite calls_cons, run_call. cbn [vars world].
      change (metaOf (with_lastProcessedKey _ (vars r))) with (metaOf (vars r)).
      change (filterByQuery _ _ _) with (searchResults (vars r)).
      destruct (host (OnResults _ _ _) w1) as [[] w2]; [done|]. cbn [fst snd].
      rewrite run_get, calls_cons, run_call. cbn [vars world state with_lastProcessedKey].
      destruct (host (AnnounceResults _ _ _) w2) as [[] w3]; done.
    + cbn [mret eff_mret eff_ret]. rewrite run_get, calls_cons, run_call. cbn [vars world state with_lastProcessedKey].
      change (filterByQuery _ _ _) with (searchResults (vars r)).
      destruct (host (AnnounceResults _ _ _) w1) as [[] w3]; done.
Qed.
End search.

Lemma same_but_key_refl : Reflexive same_but_key.
Proof. by intros v. Qed.

Lemma same_but_key_trans : Transitive same_but_key.
Proof.
  intros v1 v2 v3 (H1 & H2 & H3 & H4) (H1' & H2' & H3' & H4').
  repeat split; congruence.
Qed.

#[local] Existing Instance same_but_key_refl.
#[local] Existing Instance same_but_key_trans.

Section search_run.
Context {W : Type} (host : Event → W → bool * W).

Lemma performSearch_catch_calls r :
  performSearch_catch host r = calls host (fallbackEvents (vars r)) r.
Proof.
  unfold performSearch_catch, fallbackEvents, hideLoadingState. cbn [app].
  rewrite calls_cons, run_call_bind.
  destruct (host ConsoleError (world r)) as [[] w1]; [done|]. cbn [fst snd].
  rewrite calls_cons, run_call_bind. cbn [vars world].
  destruct (host HideLoadingState w1) as [[] w2]; [done|]. cbn [fst snd].
  rewrite run_get. unfold notifyResults. rewrite run_get. cbn [vars world].
  destruct (onResultsCallback (vars r)) as [cb|].
  - rewrite calls_cons, run_call. cbn [vars world].
    destruct (host (OnResults _ _ _) w2) as [[] w3]; done.
  - done.
Qed.

Lemma performSearch_try_vars r :
  vars (final (performSearch_try host) r) =
    if bool_decide (Some (searchKeyOf (state (vars r))) = lastProcessedKey (vars r))
    then vars r
    else with_lastProcessedKey (Some (searchKeyOf (state (vars r)))) (vars r).
Proof.
  unfold final. rewrite performSearch_try_calls. case_bool_decide; apply calls_vars.
Qed.

Lemma performSearch_try_same r :
  same_but_key (vars r) (vars (final (performSearch_try host) r)).
Proof. rewrite performSearch_try_vars. by case_bool_decide. Qed.

Lemma performSearch_try_events r :
  let expected :=
    if bool_decide (Some (searchKeyOf (state (vars r))) = lastProcessedKey (vars r))
    then [HideLoadingState] else searchEvents (vars r) in
  events (performSearch_try host) r `prefix_of` expected
  ∧ (completion (performSearch_try host) r = Normal () →
     events (performSearch_try host) r = expected).
Proof.
  cbv zeta. unfold events, completion. rewrite performSearch_try_calls.
  case_bool_decide; apply calls_events.
Qed.

Lemma performSearch_catch_vars r : vars (final (performSearch_catch host) r) = vars r.
Proof. unfold final. rewrite performSearch_catch_calls. apply calls_vars. Qed.

Lemma performSearch_catch_events r :
  events (performSearch_catch host) r `prefix_of` fallbackEvents (vars r)
  ∧ (completion (performSearch_catch host) r = Normal () →
     events (performSearch_catch host) r = fallbackEvents (vars r)).
Proof. unfold events, completion. rewrite performSearch_catch_calls. apply calls_events. Qed.

Lemma performSearch_normal r :
  completion (performSearch_try host) r = Normal () →
  performSearch host r = performSearch_try host r.
Proof.
  unfold completion, performSearch. rewrite run_try_catch.
  by destruct (performSearch_try host r) as [[[[]|] r1] ev1].
Qed.

Lemma performSearch_thrown r :
  completion (performSearch_try host) r = Thrown →
  completion (performSearch host) r
    = completion (performSearch_catch host) (final (performSearch_try host) r)
  ∧ final (performSearch host) r
    = final (performSearch_catch host) (final (performSearch_try host) r)
  ∧ events (performSearch host) r
    = events (performSearch_try host) r
      ++ events (performSearch_catch host) (final (performSearch_try host) r).
Proof.
  unfold completion, final, events, performSearch. rewrite run_try_catch.
  destruct (performSearch_try host r) as [[[[]|] r1] ev1]; [done|]. intros _. simpl.
  by destruct (performSearch_catch host r1) as [[c r2] ev2].
Qed.

Lemma performSearch_same r :
  same_but_key (vars r) (vars (final (performSearch host) r)).
Proof.
  destruct (completion (performSearch_try host) r) as [[]|] eqn:E.
  - unfold final. rewrite performSearch_normal by done. apply performSearch_try_same.
  - apply performSearch_thrown in E as (_ & -> & _).
    rewrite performSearch_catch_vars. apply performSearch_try_same.
Qed.

Lemma OnResults_searchEvents v cb results meta :
  OnResults cb results meta ∈ searchEvents v → results = searchResults v.
Proof.
  unfold searchEvents. destruct (onResultsCallback v); cbn [app]; intros H.
  - apply elem_of_cons in H as [H|H]; [done|].
    apply elem_of_cons in H as [H|H]; [by injection H|].
    apply elem_of_cons in H as [H|H]; [done|]. by apply elem_of_nil in H.
  - apply elem_of_cons in H as [H|H]; [done|].
    apply elem_of_cons in H as [H|H]; [done|]. by apply elem_of_nil in H.
Qed.

Lemma performSearch_try_results r cb results meta :
  OnResults cb results meta ∈ events (performSearch_try host) r →
  results = searchResults (vars r).
Proof.
  intros H. destruct (performSearch_try_events r) as [Hp _]. cbv zeta in Hp.
  eapply elem_of_prefix in H; [|exact Hp]. case_bool_decide.
  - apply elem_of_cons in H as [H|H]; [done | by apply elem_of_nil in H].
  - by eapply OnResults_searchEvents.
Qed.
End search_run.

Lemma fallbackEvents_same v v' : same_but_key v v' → fallbackEvents v' = fallbackEvents v.
Proof.
  intros (H1 & H2 & H3 & H4). unfold fallbackEvents, metaOf. by rewrite H1, H2, H3.
Qed.

Section search_paths.
Context {W : Type} (host : Event → W → bool * W).

Lemma performSearch_events_cases r e :
  e ∈ events (performSearch host) r →
  e ∈ events (performSearch_try host) r
  ∨ (completion (performSearch_try host) r = Thrown ∧ e ∈ fallbackEvents (vars r)).
Proof.
  destruct (completion (performSearch_try host) r) as [[]|] eqn:E.
  - unfold events at 1. rewrite performSearch_normal by done. by left.
  - destruct (performSearch_thrown host r E) as (_ & _ & ->).
    intros [H|H]%elem_of_app; [by left|]. right. split; [done|].
    destruct (performSearch_catch_events host (final (performSearch_try host) r)) as [Hp _].
    eapply elem_of_prefix in H; [|exact Hp].
    by rewrite (fallbackEvents_same (vars r)) in H by apply performSearch_try_same.
Qed.
End search_paths.

(** ** The words of the query *)

(** The non-empty pieces of [splitWhiteSpace]. *)
Lemma pieces_whiteSpace c s in_run :
  isWhiteSpace c = true →
  List.filter (λ w, 0 <? length w) (splitWhiteSpace in_run [] (c :: s))
  = List.filter (λ w, 0 <? length w) (splitWhiteSpace true [] s).
Proof.
  intros Hc. cbn [splitWhiteSpace]. rewrite Hc. by destruct in_run.
Qed.

Lemma pieces_separator sep : ∀ s in_run,
  Forall (λ c, isWhiteSpace c = true) sep →
  ∃ in_run',
    List.filter (λ w, 0 <? length w) (splitWhiteSpace in_run [] (sep ++ s))
    = List.filter (λ w, 0 <? length w) (splitWhiteSpace in_run' [] s).
Proof.
  induction sep as [|c sep IH]; intros s in_run Hsep; [by exists in_run|].
  apply Forall_cons in Hsep as [Hc Hsep]. destruct (IH s true Hsep) as [b Hb].
  exists b. cbn [app]. by rewrite pieces_whiteSpace.
Qed.

Lemma pieces_word w : ∀ cur rest in_run,
  Forall (λ c, isWhiteSpace c = false) w → w ≠ [] →
  splitWhiteSpace in_run cur (w ++ rest) = splitWhiteSpace false (reverse w ++ cur) rest.
Proof.
  induction w as [|c w IH]; intros cur rest in_run Hw Hne; [done|].
  apply Forall_cons in Hw as [Hc Hw]. cbn [app splitWhiteSpace]. rewrite Hc.
  rewrite reverse_cons, <- app_assoc. cbn [app].
  destruct w as [|d w]; [done|]. by rewrite IH.
Qed.

Lemma queryWordsOf_separator sep :
  Forall (λ c, isWhiteSpace c = true) sep → queryWordsOf sep = [].
Proof.
  intros Hsep. unfold queryWordsOf, split_ws.
  destruct (pieces_separator sep [] false Hsep) as [b Hb].
  rewrite app_nil_r in Hb. rewrite Hb. done.
Qed.

Lemma queryWordsOf_word sep w rest :
  Forall (λ c, isWhiteSpace c = true) sep →
  w ≠ [] → Forall (λ c, isWhiteSpace c = false) w →
  (rest = [] ∨ ∃ c rest', rest = c :: rest' ∧ isWhiteSpace c = true) →
  queryWordsOf (sep ++ w ++ rest) = w :: queryWordsOf rest.
Proof.
  intros Hsep Hne Hw Hrest. unfold queryWordsOf, split_ws.
  destruct (pieces_separator sep (w ++ rest) false Hsep) as [b ->].
  rewrite pieces_word, app_nil_r by done.
  assert ((0 <? length (reverse (reverse w))) = true) as Hlen.
  { rewrite reverse_involutive. destruct w; [done | reflexivity]. }
  destruct Hrest as [->|(c & rest' & -> & Hc)].
  - cbn [splitWhiteSpace List.filter]. rewrite Hlen. by rewrite reverse_involutive.
  - cbn [splitWhiteSpace]. rewrite Hc. cbn [app List.filter]. rewrite Hlen.
    by rewrite reverse_involutive.
Qed.

Lemma queryWordsOf_words_of query ws : words_of query ws → queryWordsOf query = ws.
Proof.
  induction 1 as [sep Hsep|sep w rest ws Hsep Hne Hw Hrest _ IH].
  - by apply queryWordsOf_separator.
  - rewrite queryWordsOf_word by done. by rewrite IH.
Qed.

(** Every string has its words. *)
Lemma words_of_total query : ∃ ws, words_of query ws.
Proof.
  induction query as [|c query [ws IH]].
  { exists []. by constructor. }
  destruct (isWhiteSpace c) eqn:Hc.
  - exists ws. destruct IH as [sep Hsep|sep w rest ws Hsep Hne Hw Hrest Hws].
    + constructor. by constructor.
    + apply (words_of_word (c :: sep)); try done. by constructor.
  - destruct IH as [sep Hsep|sep w rest ws Hsep Hne Hw Hrest Hws].
    + exists [[c]]. apply (words_of_word [] [c] sep []); try done.
      * by repeat constructor.
      * destruct Hsep as [|d sep Hd _]; [by left | right; by exists d, sep].
      * by constructor.
    + destruct sep as [|d sep].
      * exists ((c :: w) :: ws). apply (words_of_word [] (c :: w) rest ws); try done.
        by constructor.
      * exists ([c] :: w :: ws).
        apply (words_of_word [] [c] ((d :: sep) ++ w ++ rest) (w :: ws)); try done.
        -- by repeat constructor.
        -- right. exists d, (sep ++ w ++ rest). split; [done|].
           by apply Forall_cons in Hsep as [? _].
        -- by constructor.
Qed.

(** ** The filters *)

Lemma filter_all {A} (l : list A) : List.filter (λ _, true) l = l.
Proof. induction l; simpl; congruence. Qed.

Lemma existsb_elem_of (selected l : list jstring) :
  existsb (λ p, bool_decide (p ∈ l)) selected = true ↔ ∃ p, p ∈ selected ∧ p ∈ l.
Proof.
  rewrite existsb_exists. split; intros (p & H1 & H2); exists p.
  - split; [by apply list_elem_of_In | by apply bool_decide_eq_true in H2].
  - split; [by apply list_elem_of_In | by apply bool_decide_eq_true].
Qed.

Lemma filterByCategory_keep s results :
  ∃ keep : JsVal → bool,
    (∀ tool, keep tool = true ↔
       field Tool.category tool = Some (State.category s)
       ∨ State.category s = lit "all" ∨ State.category s = [])
    ∧ filterByCategory s results = List.filter keep results.
Proof.
  unfold filterByCategory.
  destruct (decide (State.category s = [])) as [H1|H1].
  { exists (λ _, true). rewrite bool_decide_true, filter_all by done. split; [|done].
    intros tool. split; auto. }
  destruct (decide (State.category s = lit "all")) as [H2|H2].
  { exists (λ _, true). rewrite (bool_decide_true (_ = lit _)), andb_false_r, filter_all by done.
    split; [|done]. intros tool. split; auto. }
  rewrite !bool_decide_false by done. eexists. split; [|done].
  intros tool. rewrite bool_decide_eq_true. split; [auto | by intros [?|[?|?]]].
Qed.

Lemma filterByPlatforms_keep s results :
  ∃ keep : JsVal → bool,
    (∀ tool, keep tool = true ↔
       State.platforms s = []
       ∨ ∃ p, p ∈ State.platforms s ∧ p ∈ or_empty (field Tool.platforms tool))
    ∧ filterByPlatforms s results = List.filter keep results.
Proof.
  unfold filterByPlatforms. destruct (State.platforms s) as [|p ps] eqn:E.
  { exists (λ _, true). rewrite filter_all. split; [|done]. intros; split; auto. }
  eexists. split; [|done]. intros tool. cbv zeta. rewrite existsb_elem_of.
  split; [auto | by intros [?|?]].
Qed.

Lemma filterByTags_keep s results :
  ∃ keep : JsVal → bool,
    (∀ tool, keep tool = true ↔
       State.tags s = []
       ∨ ∃ t, t ∈ State.tags s ∧ t ∈ or_empty (field Tool.tags tool))
    ∧ filterByTags s results = List.filter keep results.
Proof.
  unfold filterByTags. destruct (State.tags s) as [|p ps] eqn:E.
  { exists (λ _, true). rewrite filter_all. split; [|done]. intros; split; auto. }
  eexists. split; [|done]. intros tool. cbv zeta. rewrite existsb_elem_of.
  split; [auto | by intros [?|?]].
Qed.

Lemma elem_of_List_filter {A} (f : A → bool) (l : list A) x :
  x ∈ List.filter f l ↔ x ∈ l ∧ f x = true.
Proof. by rewrite !list_elem_of_In, filter_In. Qed.

Lemma filtered_survives v tool :
  tool ∈ filtered v ↔ tool ∈ tools v ∧ survives (state v) tool.
Proof.
  unfold filtered, survives.
  destruct (filterByCategory_keep (state v) (tools v)) as (k1 & H1 & ->).
  destruct (filterByPlatforms_keep (state v) (List.filter k1 (tools v))) as (k2 & H2 & ->).
  destruct (filterByTags_keep (state v) (List.filter k2 (List.filter k1 (tools v))))
    as (k3 & H3 & ->).
  rewrite !elem_of_List_filter, H1, H2, H3. tauto.
Qed.

(** C4: a tool passes the filtering stage of [performSearch] exactly when
    its category is the selected one (or the selection is 'all' or
    empty), and no platform is selected or it has one of the selected
    platforms, and no tag is selected or it has one of the selected tags;
    the stage is three array filters applied in this order, and its
    outcome is what the query stage receives (and the result itself when
    the query is empty). *)
Theorem filter_stage_survivors {W} (host : Event → W → bool * W) (r : Run W) :
  let v := vars r in
  ∃ byCategory byPlatforms byTags : JsVal → bool,
    (∀ tool, byCategory tool = true ↔
       field Tool.category tool = Some (State.category (state v))
       ∨ State.category (state v) = lit "all" ∨ State.category (state v) = [])
    ∧ (∀ tool, byPlatforms tool = true ↔
         State.platforms (state v) = []
         ∨ ∃ p, p ∈ State.platforms (state v) ∧ p ∈ or_empty (field Tool.platforms tool))
    ∧ (∀ tool, byTags tool = true ↔
         State.tags (state v) = []
         ∨ ∃ t, t ∈ State.tags (state v) ∧ t ∈ or_empty (field Tool.tags tool))
    ∧ filtered v
      = List.filter byTags (List.filter byPlatforms (List.filter byCategory (tools v)))
    ∧ (∀ tool, tool ∈ filtered v ↔ tool ∈ tools v ∧ survives (state v) tool)
    ∧ ∀ cb results meta,
        OnResults cb results meta ∈ events (performSearch_try host) r →
        results = filterByQuery (searchIndex v) (state v) (filtered v)
        ∧ (State.query (state v) = [] → results = filtered v).
Proof.
  intros v.
  destruct (filterByCategory_keep (state v) (tools v)) as (k1 & H1 & E1).
  destruct (filterByPlatforms_keep (state v) (List.filter k1 (tools v))) as (k2 & H2 & E2).
  destruct (filterByTags_keep (state v) (List.filter k2 (List.filter k1 (tools v))))
    as (k3 & H3 & E3).
  exists k1, k2, k3.
  split; [exact H1|]. split; [exact H2|]. split; [exact H3|].
  split; [unfold filtered; by rewrite E1, E2, E3|].
  split; [intros tool; apply filtered_survives|].
  intros cb results meta ->%performSearch_try_results. split; [done|].
  intros Hq. unfold searchResults, filterByQuery. fold v. by rewrite Hq.
Qed.

Section ranking.
Context {W : Type} (host : Event → W → bool * W).

(** C1: with a non-empty query, the list the search hands to the results
    callback holds exactly the tools that pass the category, platform and
    tag filters and whose match score against the words of the query (the
    runs of code units between white space) is positive, in non-increasing
    order of that score.  The only other list [performSearch] hands out is
    the full list of tools, after a step of the search threw. *)
Theorem performSearch_results_ranked (r : Run W) (words : list jstring) :
  State.query (state (vars r)) ≠ [] →
  words_of (State.query (state (vars r))) words →
  let score := λ tool, calculateMatchScore (searchIndex (vars r)) tool words in
  let ranked := λ results,
    (∀ tool, tool ∈ results ↔
       tool ∈ tools (vars r) ∧ survives (state (vars r)) tool ∧ (0 < score tool)%Z)
    ∧ results ≡ₚ List.filter (λ tool, (0 <? score tool)%Z) (filtered (vars r))
    ∧ StronglySorted (λ x y, (score y ≤ score x)%Z) results in
  (∀ cb results meta,
     OnResults cb results meta ∈ events (performSearch_try host) r → ranked results)
  ∧ (∀ cb results meta,
       OnResults cb results meta ∈ events (performSearch host) r →
       ranked results
       ∨ completion (performSearch_try host) r = Thrown ∧ results = tools (vars r)).
Proof.
  intros Hq Hwords score ranked.
  assert (ranked (searchResults (vars r))) as Hranked.
  { destruct (filterByQuery_spec (searchIndex (vars r)) (state (vars r))
                (filtered (vars r)) Hq) as (Hperm & Hsorted & _).
    cbv zeta in Hperm, Hsorted.
    rewrite (queryWordsOf_words_of _ _ Hwords) in Hperm, Hsorted.
    split; [|split]; [|exact Hperm|exact Hsorted].
    intros tool. unfold searchResults. rewrite Hperm, elem_of_List_filter, filtered_survives.
    fold (score tool). rewrite Z.ltb_lt. tauto. }
  split.
  - by intros cb results meta ->%performSearch_try_results.
  - intros cb results meta [H|[Hc H]]%performSearch_events_cases.
    + left. by apply performSearch_try_results in H as ->.
    + right. split; [done|]. unfold fallbackEvents in H.
      destruct (onResultsCallback (vars r)); cbn [app] in H.
      * apply elem_of_cons in H as [H|H]; [done|].
        apply elem_of_cons in H as [H|H]; [done|].
        apply elem_of_cons in H as [H|H]; [by injection H | by apply elem_of_nil in H].
      * apply elem_of_cons in H as [H|H]; [done|].
        apply elem_of_cons in H as [H|H]; [done | by apply elem_of_nil in H].
Qed.
End ranking.

Lemma performSearch_results_ranked_witness :
  (∀ tool, tool ∈ [vlc; krita; gimp] ↔
     tool ∈ tools (sample_vars "l linux" "all" [])
     ∧ survives (state (sample_vars "l linux" "all" [])) tool
     ∧ (0 < calculateMatchScore (searchIndex (sample_vars "l linux" "all" [])) tool
              [lit "l"; lit "linux"])%Z)
  ∧ [vlc; krita; gimp]
    ≡ₚ List.filter
         (λ tool, (0 <? calculateMatchScore (searchIndex (sample_vars "l linux" "all" []))
                          tool [lit "l"; lit "linux"])%Z)
         (filtered (sample_vars "l linux" "all" []))
  ∧ StronglySorted
      (λ x y, (calculateMatchScore (searchIndex (sample_vars "l linux" "all" [])) y
                 [lit "l"; lit "linux"]
               ≤ calculateMatchScore (searchIndex (sample_vars "l linux" "all" [])) x
                   [lit "l"; lit "linux"])%Z)
      [vlc; krita; gimp].
Proof.
  apply (proj1 (performSearch_results_ranked quiet_host
                  (mkRun (sample_vars "l linux" "all" []) ()) [lit "l"; lit "linux"]
                  ltac:(discriminate)
                  ltac:(apply (words_of_word [] (lit "l") (lit " linux") [lit "linux"]);
                        [constructor | discriminate | by repeat constructor
                        | right; by exists 32%N, (lit "linux") |];
                        apply (words_of_word (lit " ") (lit "linux") [] []);
                        [by repeat constructor | discriminate | by repeat constructor
                        | by left | by constructor]))
           1%N [vlc; krita; gimp] (metaOf (sample_vars "l linux" "all" []))).
  vm_compute. constructor 2. constructor 1.
Defined.

(** C5: [performSearch] changes neither the stored tools, nor the search
    index, nor the filter state (nor the registered callback), whether or
    not a call it makes throws. *)
Theorem performSearch_changes_no_data {W} (host : Event → W → bool * W) (r : Run W) :
  tools (vars (final (performSearch host) r)) = tools (vars r)
  ∧ searchIndex (vars (final (performSearch host) r)) = searchIndex (vars r)
  ∧ state (vars (final (performSearch host) r)) = state (vars r)
  ∧ onResultsCallback (vars (final (performSearch host) r)) = onResultsCallback (vars r).
Proof. destruct (performSearch_same host r) as (H1 & H2 & H3 & H4). done. Qed.



Section fallback.
Context {W : Type} (host : Event → W → bool * W).


End fallback.


(** ** Determinism *)

Lemma calculateMatchScore_lookup index1 index2 tool queryWords :
  index1 !! field Tool.id tool = index2 !! field Tool.id tool →
  calculateMatchScore index1 tool queryWords = calculateMatchScore index2 tool queryWords.
Proof. intros H. unfold calculateMatchScore. by rewrite H. Qed.

Lemma filterByQuery_ext index1 index2 s1 s2 results :
  State.query s1 = State.query s2 →
  (∀ tool, tool ∈ results →
     index1 !! field Tool.id tool = index2 !! field Tool.id tool) →
  filterByQuery index1 s1 results = filterByQuery index2 s2 results.
Proof.
  intros Hq Hi. unfold filterByQuery. rewrite Hq.
  destruct (_ && _); [|done]. cbv zeta. do 3 f_equal.
  apply map_ext_in. intros tool Hin. f_equal.
  apply calculateMatchScore_lookup, Hi. by apply list_elem_of_In.
Qed.

Lemma filtered_ext v1 v2 :
  tools v1 = tools v2 → same_filters (state v1) (state v2) → filtered v1 = filtered v2.
Proof.
  intros Ht (Hq & Hc & Hp & Hg).
  unfold filtered, filterByTags, filterByPlatforms, filterByCategory.
  by rewrite Ht, Hc, Hp, Hg.
Qed.

Lemma searchResults_ext v1 v2 :
  tools v1 = tools v2 → same_filters (state v1) (state v2) →
  indexed v1 → indexed v2 → searchResults v1 = searchResults v2.
Proof.
  intros Ht Hs H1 H2. unfold searchResults. rewrite (filtered_ext v1 v2) by done.
  apply filterByQuery_ext; [apply Hs|].
  intros tool [Hin _]%filtered_survives.
  rewrite H2 by done. rewrite <- Ht in Hin |- *. by apply H1.
Qed.

(** C7: two searches over the same tools and the same query, category,
    platforms and tags, each with the index built from its tools, hand
    the same list to their callbacks, element for element and in the same
    order, whatever the browser does and whatever was searched before. *)
Theorem performSearch_deterministic {W1 W2}
    (host1 : Event → W1 → bool * W1) (host2 : Event → W2 → bool * W2)
    (r1 : Run W1) (r2 : Run W2) cb1 results1 meta1 cb2 results2 meta2 :
  tools (vars r1) = tools (vars r2) →
  same_filters (state (vars r1)) (state (vars r2)) →
  indexed (vars r1) → indexed (vars r2) →
  OnResults cb1 results1 meta1 ∈ events (performSearch_try host1) r1 →
  OnResults cb2 results2 meta2 ∈ events (performSearch_try host2) r2 →
  results1 = results2.
Proof.
  intros Ht Hs H1 H2 ->%performSearch_try_results ->%performSearch_try_results.
  by apply searchResults_ext.
Qed.

Lemma performSearch_deterministic_witness : [gimp; krita] = [gimp; krita].
Proof.
  apply (performSearch_deterministic quiet_host failing_announcer_host
           (mkRun (sample_vars "photoshop" "all" []) ())
           (mkRun (with_lastProcessedKey (Some (lit "stale"))
                     (sample_vars "photoshop" "all" [])) ())
           1%N [gimp; krita] (metaOf (sample_vars "photoshop" "all" []))
           1%N [gimp; krita] (metaOf (sample_vars "photoshop" "all" []))).
  - reflexivity.
  - repeat split.
  - intros tool _. reflexivity.
  - intros tool _. reflexivity.
  - vm_compute. constructor 2. constructor 1.
  - vm_compute. constructor 2. constructor 1.
Defined.

(** ** Initialisation *)

Lemma validTool_object tool :
  validTool tool = true →
  ∃ o, tool = JObj o ∧ truthy_str (Tool.id o) = true ∧ truthy_str (Tool.name o) = true.
Proof.
  unfold validTool. intros H. apply andb_prop in H as [H Hname].
  apply andb_prop in H as [H Hid]. destruct tool; try done. by exists o.
Qed.

Lemma indexOfTools_snoc ts tool :
  indexOfTools (ts ++ [tool]) = <[field Tool.id tool := indexEntryOf tool]> (indexOfTools ts).
Proof. unfold indexOfTools. by rewrite foldl_app. Qed.


Section initialisation.
Context {W : Type} (host : Event → W → bool * W).

Lemma forEach_index (l : list JsVal) : ∀ v w,
  Forall (λ tool, truthy tool = true) l →
  forEach l (λ tool,
    match tool return Eff W unit with
    | JUndefined | JNull => throw
    | _ => modify (with_searchIndex (λ index,
             <[field Tool.id tool := indexEntryOf tool]> index))
    end) (mkRun v w)
  = (Normal (),
     mkRun (with_searchIndex
              (λ index, foldl (λ index tool, <[field Tool.id tool := indexEntryOf tool]> index)
                          index l) v) w,
     []).
Proof.
  induction l as [|tool l IH]; intros v w Hl.
  { by destruct v. }
  apply Forall_cons in Hl as [Ht Hl]. cbn [forEach].
  destruct tool; try done; rewrite run_modify; cbn [vars world]; by rewrite IH.
Qed.

Lemma buildSearchIndex_run (r : Run W) :
  Forall (λ tool, truthy tool = true) (tools (vars r)) →
  buildSearchIndex r
  = (Normal (),
     mkRun (with_searchIndex (λ _, indexOfTools (tools (vars r))) (vars r)) (world r), []).
Proof.
  intros H. unfold buildSearchIndex. rewrite run_modify, run_get. cbn [vars world].
  change (tools (with_searchIndex _ (vars r))) with (tools (vars r)).
  by rewrite forEach_index.
Qed.
End initialisation.

Section initialisation_fresh.
Context {W : Type} (host : Event → W → bool * W).

Lemma retained_valid toolsData : Forall (λ tool, validTool tool = true) (retained toolsData).
Proof.
  apply Forall_forall. intros tool. destruct toolsData; try by intros ?%elem_of_nil.
  simpl. by intros [_ ?]%elem_of_List_filter.
Qed.

End initialisation_fresh.

Section initialisation_again.
Context {W : Type} (host : Event → W → bool * W).

Lemma init_again_vars toolsData onResults (r : Run W) :
  State.isInitialized (state (vars r)) = true →
  let v := vars (final (init host toolsData onResults) r) in
  v = vars r ∨ v = with_tools [] (vars r).
Proof.
  intros Hi. cbv zeta. unfold final, init. rewrite run_try_catch, run_get, Hi, run_call.
  destruct (host ConsoleWarn (world r)) as [[] w1]; cbn [fst snd vars world]; [|by left].
  rewrite run_call_bind. cbn [vars world].
  destruct (host ConsoleError w1) as [[] w2]; cbn [fst snd vars world]; [by left|].
  right. unfold with_tools, with_state. cbn. rewrite <- Hi. by destruct (vars r) as [[]].
Qed.


End initialisation_again.


Section initialised.
Context {W : Type} (host : Event → W → bool * W).


End initialised.



(** ** The toggles *)

Lemma indexOf_absent arr x : x ∉ arr → indexOf arr x = None.
Proof.
  induction arr as [|y arr IH]; [done|]. intros [Hne Hnin]%not_elem_of_cons.
  cbn [indexOf]. rewrite decide_False by done. by rewrite IH.
Qed.

Lemma indexOf_first pre x post :
  x ∉ pre → indexOf (pre ++ x :: post) x = Some (length pre).
Proof.
  induction pre as [|y pre IH]; cbn [indexOf app length].
  - intros _. by rewrite decide_True.
  - intros [Hne Hnin]%not_elem_of_cons. rewrite decide_False by done. by rewrite IH.
Qed.

Lemma toggle_absent arr x : x ∉ arr → toggle arr x = arr ++ [x].
Proof. intros H. unfold toggle. by rewrite indexOf_absent. Qed.

Lemma toggle_present pre x post : x ∉ pre → toggle (pre ++ x :: post) x = pre ++ post.
Proof.
  intros H. unfold toggle. rewrite indexOf_first by done.
  induction pre as [|y pre IH]; [done|]. apply not_elem_of_cons in H as [_ H].
  cbn. f_equal. by apply IH.
Qed.

Lemma toggle_twice_absent arr x : x ∉ arr → toggle (toggle arr x) x = arr.
Proof.
  intros H. rewrite (toggle_absent arr x H), toggle_present by done. apply app_nil_r.
Qed.

Lemma toggle_twice_present pre x post :
  x ∉ pre → x ∉ post → toggle (toggle (pre ++ x :: post) x) x = pre ++ post ++ [x].
Proof.
  intros H1 H2. rewrite toggle_present by done. rewrite toggle_absent; [by rewrite <- app_assoc|].
  rewrite elem_of_app. tauto.
Qed.

Section setters.
Context {W : Type} (host : Event → W → bool * W).

Lemma notifyStateChange_same : changes same_but_key (notifyStateChange host).
Proof.
  apply (changes_bind same_but_key); [apply (changes_get same_but_key)|].
  intros v. apply (changes_call host same_but_key).
Qed.

(** What is left of the variables by an operation that updates the state,
    searches and notifies. *)
Lemma update_then_search (f : State.t → State.t) (r : Run W) :
  let v := vars (final (modify (with_state f);; performSearch host;; notifyStateChange host) r) in
  state v = f (state (vars r)) ∧ tools v = tools (vars r)
  ∧ onResultsCallback v = onResultsCallback (vars r) ∧ searchIndex v = searchIndex (vars r).
Proof.
  cbv zeta. unfold final. rewrite run_modify.
  assert (changes same_but_key (performSearch host;; notifyStateChange host)) as H.
  { apply (changes_bind same_but_key); [exact (performSearch_same host)|].
    intros _. apply notifyStateChange_same. }
  exact (H (mkRun (with_state f (vars r)) (world r))).
Qed.
End setters.

(** C9 does not hold as stated: toggling twice a platform that is selected
    and not last moves it to the end of the list. *)
Lemma togglePlatform_twice_reorders :
  State.platforms (state (vars
    (final (togglePlatform quiet_host (lit "linux"))
       (final (togglePlatform quiet_host (lit "linux"))
          (mkRun (sample_vars "gimp" "all" ["linux"; "windows"]%string) ())))))
  = [lit "windows"; lit "linux"].
Proof. vm_compute. reflexivity. Qed.

(** C9, amended: [togglePlatform] appends the platform when it is not
    selected and removes its first occurrence when it is; two calls
    restore the list when the platform was not selected, and move it to
    the end when it was selected once.  The same holds of [toggleTag]. *)
Theorem toggle_once_and_twice {W} (host : Event → W → bool * W) (x : jstring) (r : Run W) :
  let platforms0 := State.platforms (state (vars r)) in
  let platforms1 := State.platforms (state (vars (final (togglePlatform host x) r))) in
  let platforms2 :=
    State.platforms (state (vars
      (final (togglePlatform host x) (final (togglePlatform host x) r)))) in
  let tags0 := State.tags (state (vars r)) in
  let tags1 := State.tags (state (vars (final (toggleTag host x) r))) in
  let tags2 :=
    State.tags (state (vars (final (toggleTag host x) (final (toggleTag host x) r)))) in
  (x ∉ platforms0 → platforms1 = platforms0 ++ [x] ∧ platforms2 = platforms0)
  ∧ (∀ pre post, platforms0 = pre ++ x :: post → x ∉ pre →
       platforms1 = pre ++ post ∧ (x ∉ post → platforms2 = pre ++ post ++ [x]))
  ∧ (x ∉ tags0 → tags1 = tags0 ++ [x] ∧ tags2 = tags0)
  ∧ (∀ pre post, tags0 = pre ++ x :: post → x ∉ pre →
       tags1 = pre ++ post ∧ (x ∉ post → tags2 = pre ++ post ++ [x])).
Proof.
  cbv zeta. unfold togglePlatform, toggleTag.
  destruct (update_then_search host
              (λ s, set_platforms (toggle (State.platforms s) x) s) r) as (Hp1 & _).
  destruct (update_then_search host
              (λ s, set_platforms (toggle (State.platforms s) x) s)
              (final (modify (with_state (λ s, set_platforms (toggle (State.platforms s) x) s));;
                      performSearch host;; notifyStateChange host) r)) as (Hp2 & _).
  destruct (update_then_search host
              (λ s, set_tags (toggle (State.tags s) x) s) r) as (Ht1 & _).
  destruct (update_then_search host
              (λ s, set_tags (toggle (State.tags s) x) s)
              (final (modify (with_state (λ s, set_tags (toggle (State.tags s) x) s));;
                      performSearch host;; notifyStateChange host) r)) as (Ht2 & _).
  cbv zeta in *. rewrite Hp2, Hp1, Ht2, Ht1. cbn [State.platforms State.tags set_platforms set_tags].
  split; [|split; [|split]].
  - intros H. by rewrite toggle_twice_absent, toggle_absent.
  - intros pre post -> H. split; [by apply toggle_present|]. intros H'.
    by apply toggle_twice_present.
  - intros H. by rewrite toggle_twice_absent, toggle_absent.
  - intros pre post -> H. split; [by apply toggle_present|]. intros H'.
    by apply toggle_twice_present.
Qed.

(** ** Sanitising *)

(** The three cases of [lower_unit]. *)
Lemma lower_unit_cases c :
  ((65 ≤ c ≤ 90 ∨ 192 ≤ c ≤ 222 ∧ c ≠ 215) ∧ lower_unit c = [c + 32])%N
  ∨ (c = 304%N ∧ lower_unit c = [105; 775]%N)
  ∨ ((c < 65 ∨ 90 < c < 192 ∨ c = 215 ∨ 222 < c) ∧ c ≠ 304 ∧ lower_unit c = [c])%N.
Proof.
  unfold lower_unit.
  destruct (N.leb_spec 65 c), (N.leb_spec c 90), (N.leb_spec 192 c), (N.leb_spec c 222),
    (N.eqb_spec c 215), (N.eqb_spec c 304); cbn [andb negb]; try lia;
    first [left; split; [lia | done] | right; left; done | right; right; split; [lia|done] ].
Qed.

Lemma isWhiteSpace_spec c :
  isWhiteSpace c = true ↔
  (9 ≤ c ≤ 13 ∨ c = 32 ∨ c = 160 ∨ c = 5760 ∨ 8192 ≤ c ≤ 8202 ∨ c = 8232 ∨ c = 8233
   ∨ c = 8239 ∨ c = 8287 ∨ c = 12288 ∨ c = 65279)%N.
Proof.
  unfold isWhiteSpace. rewrite !orb_true_iff, !andb_true_iff, !N.leb_le, !N.eqb_eq. tauto.
Qed.

Lemma isWhiteSpace_false c :
  isWhiteSpace c = false ↔
  ¬ (9 ≤ c ≤ 13 ∨ c = 32 ∨ c = 160 ∨ c = 5760 ∨ 8192 ≤ c ≤ 8202 ∨ c = 8232 ∨ c = 8233
     ∨ c = 8239 ∨ c = 8287 ∨ c = 12288 ∨ c = 65279)%N.
Proof. rewrite <- isWhiteSpace_spec. by destruct (isWhiteSpace c). Qed.

Lemma isControl_false c : isControl c = false ↔ (31 < c ∧ c ≠ 127)%N.
Proof.
  unfold isControl. rewrite orb_false_iff, N.leb_gt, N.eqb_neq. tauto.
Qed.

Lemma lower_unit_whiteSpace c : isWhiteSpace c = true → lower_unit c = [c].
Proof.
  rewrite isWhiteSpace_spec. intros H.
  destruct (lower_unit_cases c) as [[? ?]|[[? ?]|(? & ? & ?)]]; [lia | lia | done].
Qed.

Lemma lower_unit_not_whiteSpace c d :
  isWhiteSpace c = false → d ∈ lower_unit c → isWhiteSpace d = false.
Proof.
  rewrite !isWhiteSpace_false. intros H Hd.
  destruct (lower_unit_cases c) as [[? E]|[[? E]|(? & ? & E)]]; rewrite E in Hd.
  - apply list_elem_of_singleton in Hd as ->. lia.
  - apply elem_of_cons in Hd as [->|Hd]; [lia|].
    apply list_elem_of_singleton in Hd as ->. lia.
  - by apply list_elem_of_singleton in Hd as ->.
Qed.

Lemma lower_unit_not_control c d :
  isControl c = false → d ∈ lower_unit c → isControl d = false.
Proof.
  rewrite !isControl_false. intros H Hd.
  destruct (lower_unit_cases c) as [[? E]|[[? E]|(? & ? & E)]]; rewrite E in Hd.
  - apply list_elem_of_singleton in Hd as ->. lia.
  - apply elem_of_cons in Hd as [->|Hd]; [lia|].
    apply list_elem_of_singleton in Hd as ->. lia.
  - by apply list_elem_of_singleton in Hd as ->.
Qed.

Lemma lower_unit_fixed c d : d ∈ lower_unit c → lower_unit d = [d].
Proof.
  intros Hd.
  assert (d < 65 ∨ 90 < d < 192 ∨ d = 215 ∨ 222 < d ∧ d ≠ 304 → lower_unit d = [d])%N as Hfix.
  { intros H. destruct (lower_unit_cases d) as [[? E]|[[? E]|(? & ? & E)]]; [lia | lia | done]. }
  destruct (lower_unit_cases c) as [[? E]|[[? E]|(? & ? & E)]]; rewrite E in Hd.
  - apply list_elem_of_singleton in Hd as ->. apply Hfix. lia.
  - apply elem_of_cons in Hd as [->|Hd]; [done|].
    by apply list_elem_of_singleton in Hd as ->.
  - by apply list_elem_of_singleton in Hd as ->.
Qed.

Lemma lower_unit_length c : 1 ≤ length (lower_unit c) ≤ 2.
Proof.
  destruct (lower_unit_cases c) as [[? ->]|[[? ->]|(? & ? & ->)]]; simpl; lia.
Qed.

Lemma toLowerCase_cons c s : toLowerCase (c :: s) = lower_unit c ++ toLowerCase s.
Proof. done. Qed.

Lemma toLowerCase_app s1 s2 : toLowerCase (s1 ++ s2) = toLowerCase s1 ++ toLowerCase s2.
Proof. unfold toLowerCase. apply bind_app. Qed.

Lemma toLowerCase_fixed s : Forall (λ c, lower_unit c = [c]) s → toLowerCase s = s.
Proof.
  induction 1 as [|c s Hc _ IH]; [done|]. by rewrite toLowerCase_cons, Hc, IH.
Qed.

(** [toLowerCase] is idempotent. *)
Lemma toLowerCase_idemp s : toLowerCase (toLowerCase s) = toLowerCase s.
Proof.
  apply toLowerCase_fixed, Forall_forall. intros d Hd.
  apply list_elem_of_bind in Hd as (c & Hd & _). by eapply lower_unit_fixed.
Qed.

Lemma toLowerCase_length s : length s ≤ length (toLowerCase s) ≤ 2 * length s.
Proof.
  induction s as [|c s IH]; [simpl; lia|].
  rewrite toLowerCase_cons, length_app. cbn [length]. pose proof (lower_unit_length c). lia.
Qed.

Lemma toLowerCase_length_plain s :
  304%N ∉ s → length (toLowerCase s) = length s.
Proof.
  induction s as [|c s IH]; [done|]. intros [Hc Hs]%not_elem_of_cons.
  rewrite toLowerCase_cons, length_app, IH by done. cbn [length].
  destruct (lower_unit_cases c) as [[? ->]|[[? ->]|(? & ? & ->)]]; done.
Qed.

Lemma toLowerCase_no_control s :
  Forall (λ c, isControl c = false) s → Forall (λ c, isControl c = false) (toLowerCase s).
Proof.
  intros H. apply Forall_forall. intros d (c & Hd & Hc)%list_elem_of_bind.
  eapply lower_unit_not_control; [|exact Hd]. by apply (proj1 (Forall_forall _ _) H).
Qed.

Lemma removeControl_no_control s : Forall (λ c, isControl c = false) (removeControl s).
Proof.
  apply Forall_forall. intros c [_ H]%list_elem_of_In%filter_In.
  by apply negb_true_iff.
Qed.

Lemma trimStart_suffix s : trimStart s `suffix_of` s.
Proof.
  induction s as [|c s IH]; [done|]. simpl. destruct (isWhiteSpace c); [|done].
  by apply suffix_cons_r.
Qed.

Lemma trim_Forall (P : N → Prop) s : Forall P s → Forall P (trim s).
Proof.
  intros H. unfold trim. apply Forall_reverse.
  destruct (trimStart_suffix (reverse (trimStart s))) as [k1 E1].
  destruct (trimStart_suffix s) as [k2 E2].
  assert (Forall P (reverse (trimStart s))) as H1.
  { apply Forall_reverse. rewrite E2 in H. by apply Forall_app in H as [_ ?]. }
  rewrite E1 in H1. by apply Forall_app in H1 as [_ ?].
Qed.

Lemma collapseWhiteSpace_Forall (P : N → Prop) s : ∀ in_run,
  P 32%N → Forall P s → Forall P (collapseWhiteSpace in_run s).
Proof.
  induction s as [|c s IH]; intros in_run H32 Hs; [done|].
  apply Forall_cons in Hs as [Hc Hs]. cbn [collapseWhiteSpace].
  destruct (isWhiteSpace c).
  - apply Forall_app. split; [destruct in_run; by repeat constructor | by apply IH].
  - constructor; [done | by apply IH].
Qed.

(** After [collapseWhiteSpace] every white-space code unit is a single
    space that follows none. *)
Lemma collapseWhiteSpace_spaces s : ∀ in_run,
  Forall (λ c, isWhiteSpace c = true → c = 32%N) (collapseWhiteSpace in_run s)
  ∧ single_spaced (collapseWhiteSpace in_run s) = true
  ∧ (in_run = true → ∀ c, head (collapseWhiteSpace in_run s) = Some c → isWhiteSpace c = false).
Proof.
  induction s as [|c s IH]; intros in_run; [by repeat split|].
  cbn [collapseWhiteSpace]. destruct (isWhiteSpace c) eqn:Ec.
  - destruct (IH true) as (H1 & H2 & H3). destruct in_run; cbn [app].
    + done.
    + split; [by constructor|]. split; [|done].
      cbn [single_spaced]. destruct (collapseWhiteSpace true s) as [|d t] eqn:Et; [done|].
      rewrite (H3 eq_refl d) by done. simpl. exact H2.
  - destruct (IH false) as (H1 & H2 & _). split; [|split].
    + constructor; [by rewrite Ec | done].
    + cbn [single_spaced]. destruct (collapseWhiteSpace false s) as [|d t] eqn:Et; [done|].
      rewrite Ec. exact H2.
    + intros _ d [= <-]. done.
Qed.

Lemma single_spaced_take n : ∀ s, single_spaced s = true → single_spaced (take n s) = true.
Proof.
  induction n as [|n IH]; intros s H; [done|]. destruct s as [|c [|d s]]; [done | by destruct n |].
  cbn [single_spaced] in H. apply andb_prop in H as [H1 H2].
  specialize (IH (d :: s) H2). cbn [take] in *. destruct n as [|n]; [done|].
  cbn [take single_spaced] in *. by rewrite H1.
Qed.

(** [toLowerCase] keeps white space where it is. *)
Lemma toLowerCase_single_spaced s :
  single_spaced s = true → single_spaced (toLowerCase s) = true.
Proof.
  assert (Hhead : ∀ s c d, head s = Some c → head (toLowerCase s) = Some d →
            isWhiteSpace d = isWhiteSpace c).
  { intros [|c' t] c d [= <-]; rewrite toLowerCase_cons.
    destruct (isWhiteSpace c') eqn:Ec.
    - rewrite lower_unit_whiteSpace by done. by intros [= <-].
    - intros Hd. eapply lower_unit_not_whiteSpace; [exact Ec|].
      destruct (lower_unit_cases c') as [[? E]|[[? E]|(? & ? & E)]];
        rewrite E in Hd |- *; injection Hd as <-; by left. }
  induction s as [|c s IH]; [done|]. intros H.
  assert (Hs : single_spaced s = true).
  { destruct s; [done|]. cbn [single_spaced] in H. by apply andb_prop in H as [_ ?]. }
  specialize (IH Hs). rewrite toLowerCase_cons.
  assert (Hnext : ∀ d, head (toLowerCase s) = Some d → isWhiteSpace c = true →
            isWhiteSpace d = false).
  { intros d Hd Hc. destruct s as [|c2 s]; [done|].
    rewrite (Hhead (c2 :: s) c2 d) by done.
    cbn [single_spaced] in H. apply andb_prop in H as [H _].
    rewrite Hc in H. by destruct (isWhiteSpace c2). }
  destruct (lower_unit_cases c) as [[Hr E]|[[Hr E]|(Hr & Hn & E)]]; rewrite E; cbn [app].
  - cbn [single_spaced]. destruct (toLowerCase s) as [|d t] eqn:Et; [done|].
    assert (isWhiteSpace (c + 32) = false) as ->; [|exact IH].
    apply isWhiteSpace_false. lia.
  - cbn [single_spaced]. change (isWhiteSpace 105) with false.
    change (isWhiteSpace 775) with false. cbn [andb negb].
    destruct (toLowerCase s) as [|d t] eqn:Et; [done | exact IH].
  - cbn [single_spaced]. destruct (toLowerCase s) as [|d t] eqn:Et; [done|].
    destruct (isWhiteSpace c) eqn:Ec; [|exact IH].
    by rewrite (Hnext d eq_refl eq_refl).
Qed.

Lemma toLowerCase_spaces s :
  Forall (λ c, isWhiteSpace c = true → c = 32%N) s →
  Forall (λ c, isWhiteSpace c = true → c = 32%N) (toLowerCase s).
Proof.
  intros H. apply Forall_forall. intros d (c & Hd & Hc)%list_elem_of_bind Hw.
  destruct (isWhiteSpace c) eqn:Ec.
  - rewrite lower_unit_whiteSpace in Hd by done. apply list_elem_of_singleton in Hd as ->.
    by apply (proj1 (Forall_forall _ _) H).
  - by rewrite (lower_unit_not_whiteSpace c d) in Hw.
Qed.

Lemma sanitizeQuery_string input :
  input ≠ JUndefined → input ≠ JNull →
  sanitizeQuery input
  = toLowerCase (take MAX_QUERY_LENGTH
                   (collapseWhiteSpace false (trim (removeControl (ToString input))))).
Proof.
  intros H1 H2.
  assert (∀ q : jstring,
    (if MAX_QUERY_LENGTH <? length q then substring0 q MAX_QUERY_LENGTH else q)
    = take MAX_QUERY_LENGTH q) as Hq.
  { intros q. unfold substring0. destruct (Nat.ltb_spec MAX_QUERY_LENGTH (length q)); [done|].
    by rewrite take_ge. }
  destruct input; try done; unfold sanitizeQuery; cbv zeta; by rewrite Hq.
Qed.

Lemma removeControl_Forall (P : N → Prop) s : Forall P s → Forall P (removeControl s).
Proof.
  intros H. apply Forall_forall. intros c [Hc _]%list_elem_of_In%filter_In.
  apply (proj1 (Forall_forall _ _) H). by apply list_elem_of_In.
Qed.

(** C10: the result of [sanitizeQuery] is in lower case, holds no control
    character and no white space but single spaces, and is empty for
    [null] and [undefined].  Its length is at most [MAX_QUERY_LENGTH] when
    the input has no U+0130, whose lower-case form takes two code units;
    in general it is at most twice [MAX_QUERY_LENGTH], a bound that one
    hundred U+0130 reach. *)
Theorem sanitizeQuery_output (input : JsVal) :
  toLowerCase (sanitizeQuery input) = sanitizeQuery input
  ∧ Forall (λ c, isControl c = false) (sanitizeQuery input)
  ∧ single_spaced (sanitizeQuery input) = true
  ∧ Forall (λ c, isWhiteSpace c = true → c = 32%N) (sanitizeQuery input)
  ∧ sanitizeQuery JNull = [] ∧ sanitizeQuery JUndefined = []
  ∧ length (sanitizeQuery input) ≤ 2 * MAX_QUERY_LENGTH
  ∧ (304%N ∉ ToString input → length (sanitizeQuery input) ≤ MAX_QUERY_LENGTH)
  ∧ length (sanitizeQuery (JStr (replicate 100 304%N))) = 200.
Proof.
  assert (Hlast : length (sanitizeQuery (JStr (replicate 100 304%N))) = 200)
    by (vm_compute; reflexivity).
  assert (input = JUndefined ∨ input = JNull ∨ (input ≠ JUndefined ∧ input ≠ JNull))
    as [->|[->|[H1 H2]]] by (destruct input; auto).
  { repeat split; try done; simpl; unfold MAX_QUERY_LENGTH; lia. }
  { repeat split; try done; simpl; unfold MAX_QUERY_LENGTH; lia. }
  rewrite sanitizeQuery_string by done.
  set (s := ToString input).
  set (q := collapseWhiteSpace false (trim (removeControl s))).
  destruct (collapseWhiteSpace_spaces (trim (removeControl s)) false) as (Hsp & Hss & _).
  fold q in Hsp, Hss.
  assert (length (take MAX_QUERY_LENGTH q) ≤ MAX_QUERY_LENGTH) as Hlen.
  { rewrite length_take. lia. }
  split; [apply toLowerCase_idemp|].
  split.
  { apply toLowerCase_no_control, Forall_take, collapseWhiteSpace_Forall; [done|].
    apply trim_Forall, removeControl_no_control. }
  split; [by apply toLowerCase_single_spaced, single_spaced_take|].
  split; [by apply toLowerCase_spaces, Forall_take|].
  split; [done|]. split; [done|].
  split; [pose proof (toLowerCase_length (take MAX_QUERY_LENGTH q)); lia|].
  split; [|exact Hlast].
  intros H304. rewrite toLowerCase_length_plain; [done|].
  assert (Forall (λ c, c ≠ 304%N) (take MAX_QUERY_LENGTH q)) as Hall.
  { apply Forall_take, collapseWhiteSpace_Forall; [done|].
    apply trim_Forall, removeControl_Forall, Forall_forall. by intros c Hc ->. }
  intros Hin. by apply (proj1 (Forall_forall _ _) Hall) in Hin.
Qed.

(** ** More on the search *)

Lemma filter_filter_positive {A} (f : A → Z) z (l : list A) :
  (0 < z)%Z →
  List.filter (λ x, (f x =? z)%Z) (List.filter (λ x, (0 <? f x)%Z) l)
  = List.filter (λ x, (f x =? z)%Z) l.
Proof.
  intros Hz. induction l as [|x l IH]; [done|]. cbn [List.filter].
  destruct (0 <? f x)%Z eqn:E1, (f x =? z)%Z eqn:E2; cbn [List.filter]; rewrite ?E2, ?IH; try done.
  apply Z.ltb_ge in E1. apply Z.eqb_eq in E2. lia.
Qed.

Lemma filterByCategory_sublist s l : filterByCategory s l `sublist_of` l.
Proof.
  destruct (filterByCategory_keep s l) as (k & _ & ->).
  induction l as [|x l IH]; [done|]. simpl. destruct (k x); by constructor.
Qed.

Lemma List_filter_sublist {A} (f : A → bool) l : List.filter f l `sublist_of` l.
Proof. induction l as [|x l IH]; [done|]. simpl. destruct (f x); by constructor. Qed.

Lemma filtered_sublist v : filtered v `sublist_of` tools v.
Proof.
  unfold filtered.
  destruct (filterByCategory_keep (state v) (tools v)) as (k1 & _ & ->).
  destruct (filterByPlatforms_keep (state v) (List.filter k1 (tools v))) as (k2 & _ & ->).
  destruct (filterByTags_keep (state v) (List.filter k2 (List.filter k1 (tools v))))
    as (k3 & _ & ->).
  etrans; [apply List_filter_sublist|]. etrans; apply List_filter_sublist.
Qed.

Lemma searchResults_subseteq v tool : tool ∈ searchResults v → tool ∈ tools v.
Proof.
  unfold searchResults. intros H.
  assert (tool ∈ filtered v) as Hf; [|by apply filtered_survives in Hf as [? _]].
  revert H. unfold filterByQuery. destruct (_ && _); [|done]. cbv zeta.
  intros (item & -> & Hin)%list_elem_of_fmap.
  rewrite js_sort_perm in Hin. apply elem_of_List_filter in Hin as [Hin _].
  by apply list_elem_of_fmap in Hin as (x & -> & Hx).
Qed.


(** X1: with a non-empty query, the tools handed to the callback
    that have the same positive score come in the order they have among
    the tools that pass the filters, which are in the order of the list
    of tools. *)
Theorem performSearch_results_stable {W} (host : Event → W → bool * W) (r : Run W)
    cb results meta z :
  State.query (state (vars r)) ≠ [] →
  OnResults cb results meta ∈ events (performSearch_try host) r →
  (0 < z)%Z →
  List.filter (λ tool, (scoreOf (vars r) tool =? z)%Z) results
  = List.filter (λ tool, (scoreOf (vars r) tool =? z)%Z) (filtered (vars r))
  ∧ filtered (vars r) `sublist_of` tools (vars r).
Proof.
  intros Hq ->%performSearch_try_results Hz. split; [|apply filtered_sublist].
  destruct (filterByQuery_spec (searchIndex (vars r)) (state (vars r)) (filtered (vars r)) Hq)
    as (_ & _ & Hst).
  unfold searchResults, scoreOf. rewrite Hst. by apply filter_filter_positive.
Qed.

Lemma performSearch_results_stable_witness :
  List.filter (λ tool, (scoreOf (sample_vars "photoshop" "all" []) tool =? 70)%Z)
    [gimp; krita]
  = List.filter (λ tool, (scoreOf (sample_vars "photoshop" "all" []) tool =? 70)%Z)
      (filtered (sample_vars "photoshop" "all" []))
  ∧ filtered (sample_vars "photoshop" "all" [])
    `sublist_of` tools (sample_vars "photoshop" "all" []).
Proof.
  apply (performSearch_results_stable quiet_host
           (mkRun (sample_vars "photoshop" "all" []) ()) 1%N [gimp; krita]
           (metaOf (sample_vars "photoshop" "all" [])) 70).
  - discriminate.
  - vm_compute. constructor 2. constructor 1.
  - reflexivity.
Defined.

Lemma performSearch_try_skip {W} (host : Event → W → bool * W) (r : Run W) :
  lastProcessedKey (vars r) = Some (searchKeyOf (state (vars r))) →
  performSearch_try host r = call host HideLoadingState r.
Proof.
  intros Hk. rewrite performSearch_try_calls, bool_decide_true by done.
  rewrite calls_cons, run_call. by destruct (host _ _) as [[] ?].
Qed.

(** X2: when the filters are those of the last search, [performSearch]
    only hides the loading state: the results callback is not called and
    the variables are unchanged. *)
Theorem performSearch_skips_unchanged_key {W} (host : Event → W → bool * W) (r : Run W) :
  lastProcessedKey (vars r) = Some (searchKeyOf (state (vars r))) →
  events (performSearch_try host) r = [HideLoadingState]
  ∧ vars (final (performSearch host) r) = vars r
  ∧ ((host HideLoadingState (world r)).1 = false →
     performSearch host r
     = (Normal (), mkRun (vars r) (host HideLoadingState (world r)).2, [HideLoadingState])).
Proof.
  intros Hk. pose proof (performSearch_try_skip host r Hk) as Htry.
  split; [|split].
  - unfold events. rewrite Htry, run_call. done.
  - destruct (completion (performSearch_try host) r) as [[]|] eqn:E.
    + unfold final. rewrite performSearch_normal, Htry, run_call by done. done.
    + destruct (performSearch_thrown host r E) as (_ & -> & _).
      rewrite performSearch_catch_vars. unfold final. rewrite Htry, run_call. done.
  - intros Hh. unfold performSearch. rewrite run_try_catch, Htry, run_call, Hh. done.
Qed.

Lemma performSearch_skips_unchanged_key_witness :
  events (performSearch_try quiet_host)
    (mkRun (with_lastProcessedKey (Some (lit "gimp|all||")) (sample_vars "gimp" "all" [])) ())
  = [HideLoadingState]
  ∧ vars (final (performSearch quiet_host)
            (mkRun (with_lastProcessedKey (Some (lit "gimp|all||"))
                      (sample_vars "gimp" "all" [])) ()))
    = with_lastProcessedKey (Some (lit "gimp|all||")) (sample_vars "gimp" "all" [])
  ∧ ((quiet_host HideLoadingState ()).1 = false →
     performSearch quiet_host
       (mkRun (with_lastProcessedKey (Some (lit "gimp|all||"))
                 (sample_vars "gimp" "all" [])) ())
     = (Normal (),
        mkRun (with_lastProcessedKey (Some (lit "gimp|all||")) (sample_vars "gimp" "all" []))
          (quiet_host HideLoadingState ()).2,
        [HideLoadingState])).
Proof.
  apply (performSearch_skips_unchanged_key quiet_host
           (mkRun (with_lastProcessedKey (Some (lit "gimp|all||"))
                     (sample_vars "gimp" "all" [])) ())).
  vm_compute. reflexivity.
Defined.

(** X3: when the filters differ from those of the last search,
    [performSearch] stores their key before it searches: the calls it
    makes are those of a full search, up to the first that throws, and a
    second search with the same filters is skipped, also after a search
    that threw. *)
Theorem performSearch_stores_key {W} (host : Event → W → bool * W) (r : Run W) :
  lastProcessedKey (vars r) ≠ Some (searchKeyOf (state (vars r))) →
  vars (final (performSearch host) r)
  = with_lastProcessedKey (Some (searchKeyOf (state (vars r)))) (vars r)
  ∧ events (performSearch_try host) r `prefix_of` searchEvents (vars r)
  ∧ (completion (performSearch_try host) r = Normal () →
     completion (performSearch host) r = Normal ()
     ∧ events (performSearch host) r = searchEvents (vars r))
  ∧ events (performSearch_try host) (final (performSearch host) r) = [HideLoadingState].
Proof.
  intros Hk.
  assert (vars (final (performSearch_try host) r)
          = with_lastProcessedKey (Some (searchKeyOf (state (vars r)))) (vars r)) as Htry.
  { rewrite performSearch_try_vars, bool_decide_false; [done | congruence]. }
  assert (vars (final (performSearch host) r)
          = with_lastProcessedKey (Some (searchKeyOf (state (vars r)))) (vars r)) as Hv.
  { destruct (completion (performSearch_try host) r) as [[]|] eqn:E.
    - unfold final. rewrite performSearch_normal by done. exact Htry.
    - destruct (performSearch_thrown host r E) as (_ & -> & _).
      by rewrite performSearch_catch_vars. }
  destruct (performSearch_try_events host r) as [Hp He]. cbv zeta in Hp, He.
  rewrite bool_decide_false in Hp, He by congruence.
  split; [exact Hv|]. split; [exact Hp|]. split.
  - intros Hc. unfold completion, events. rewrite performSearch_normal by done.
    split; [exact Hc | by apply He].
  - unfold events. rewrite performSearch_try_skip, run_call; [done|]. by rewrite Hv.
Qed.

Lemma performSearch_stores_key_witness :
  vars (final (performSearch failing_callback_host) (mkRun (sample_vars "gimp" "all" []) ()))
  = with_lastProcessedKey (Some (searchKeyOf (state (sample_vars "gimp" "all" []))))
      (sample_vars "gimp" "all" [])
  ∧ events (performSearch_try failing_callback_host) (mkRun (sample_vars "gimp" "all" []) ())
    `prefix_of` searchEvents (sample_vars "gimp" "all" [])
  ∧ (completion (performSearch_try failing_callback_host)
       (mkRun (sample_vars "gimp" "all" []) ()) = Normal () →
     completion (performSearch failing_callback_host)
       (mkRun (sample_vars "gimp" "all" []) ()) = Normal ()
     ∧ events (performSearch failing_callback_host) (mkRun (sample_vars "gimp" "all" []) ())
       = searchEvents (sample_vars "gimp" "all" []))
  ∧ events (performSearch_try failing_callback_host)
      (final (performSearch failing_callback_host) (mkRun (sample_vars "gimp" "all" []) ()))
    = [HideLoadingState].
Proof.
  apply (performSearch_stores_key failing_callback_host
           (mkRun (sample_vars "gimp" "all" []) ())).
  discriminate.
Defined.

(** X4: whenever [performSearch] calls the results callback, it
    calls the registered one, with stored tools only and with the
    description of the current filters; the list is the result of the
    search or, after a step of the search threw, the full list. *)
Theorem performSearch_hands_out_stored_tools {W} (host : Event → W → bool * W) (r : Run W)
    cb results meta :
  OnResults cb results meta ∈ events (performSearch host) r →
  (∀ tool, tool ∈ results → tool ∈ tools (vars r))
  ∧ onResultsCallback (vars r) = Some cb
  ∧ meta = metaOf (vars r)
  ∧ (results = searchResults (vars r)
     ∨ completion (performSearch_try host) r = Thrown ∧ results = tools (vars r)).
Proof.
  intros [H|[Hc H]]%performSearch_events_cases.
  - assert (Hr := performSearch_try_results host r cb results meta H). subst results.
    split; [apply searchResults_subseteq|].
    destruct (performSearch_try_events host r) as [Hp _]. cbv zeta in Hp.
    eapply elem_of_prefix in H; [|exact Hp]. case_bool_decide.
    { apply elem_of_cons in H as [H|H]; [done | by apply elem_of_nil in H]. }
    unfold searchEvents in H. destruct (onResultsCallback (vars r)) as [cb'|]; cbn [app] in H.
    + apply elem_of_cons in H as [H|H]; [done|].
      apply elem_of_cons in H as [H|H]; [|apply elem_of_cons in H as [H|H]; [done | by apply elem_of_nil in H]].
      injection H as -> ->. auto.
    + apply elem_of_cons in H as [H|H]; [done|].
      apply elem_of_cons in H as [H|H]; [done | by apply elem_of_nil in H].
  - unfold fallbackEvents in H. destruct (onResultsCallback (vars r)) as [cb'|]; cbn [app] in H.
    + apply elem_of_cons in H as [H|H]; [done|].
      apply elem_of_cons in H as [H|H]; [done|].
      apply elem_of_cons in H as [H|H]; [|by apply elem_of_nil in H].
      injection H as -> -> ->. split; [done|]. split; [done|]. split; [done|]. by right.
    + apply elem_of_cons in H as [H|H]; [done|].
      apply elem_of_cons in H as [H|H]; [done | by apply elem_of_nil in H].
Qed.

Lemma performSearch_hands_out_stored_tools_witness :
  (∀ tool, tool ∈ [gimp; krita; vlc] → tool ∈ tools (sample_vars "gimp" "all" []))
  ∧ onResultsCallback (sample_vars "gimp" "all" []) = Some 1%N
  ∧ metaOf (sample_vars "gimp" "all" []) = metaOf (sample_vars "gimp" "all" [])
  ∧ ([gimp; krita; vlc] = searchResults (sample_vars "gimp" "all" [])
     ∨ completion (performSearch_try failing_announcer_host)
         (mkRun (sample_vars "gimp" "all" []) ()) = Thrown
       ∧ [gimp; krita; vlc] = tools (sample_vars "gimp" "all" [])).
Proof.
  apply (performSearch_hands_out_stored_tools failing_announcer_host
           (mkRun (sample_vars "gimp" "all" []) ()) 1%N [gimp; krita; vlc]
           (metaOf (sample_vars "gimp" "all" []))).
  vm_compute. do 5 constructor 2. constructor 1.
Defined.

(** ** More on the score *)


(** X5: [fuzzyMatch] is 1 as soon as one of the words, of two code units
    or more, starts with the query word. *)
Theorem fuzzyMatch_prefix_is_one query ws word :
  word ∈ ws → 2 ≤ length word → query `prefix_of` word → fuzzyMatch query ws = 1%Q.
Proof.
  intros Hin Hlen Hp. eapply fuzzyMatch_from_prefix; [exact Hin | exact Hlen |].
  by apply startsWith_prefix.
Qed.

Lemma fuzzyMatch_prefix_is_one_witness :
  fuzzyMatch (lit "edit") [lit "image"; lit "editor"] = 1%Q.
Proof.
  apply (fuzzyMatch_prefix_is_one (lit "edit") [lit "image"; lit "editor"] (lit "editor")).
  - constructor 2. constructor 1.
  - vm_compute. lia.
  - exists (lit "or"). reflexivity.
Defined.

(** X6: when no word of two code units or more starts with the query word,
    [fuzzyMatch] is the best similarity of these words, and 0 when none
    has a positive similarity. *)
Theorem fuzzyMatch_is_best_similarity query ws :
  (∀ word, word ∈ ws → 2 ≤ length word → ¬ query `prefix_of` word) →
  (0 <= fuzzyMatch query ws)%Q
  ∧ (∀ word, word ∈ ws → 2 ≤ length word →
       (similarity query word <= fuzzyMatch query ws)%Q)
  ∧ (fuzzyMatch query ws = 0%Q
     ∨ ∃ word, word ∈ ws ∧ 2 ≤ length word ∧ fuzzyMatch query ws = similarity query word).
Proof.
  intros Hno. apply fuzzyMatch_from_best.
  intros word Hin Hlen. apply startsWith_false_prefix. by apply Hno.
Qed.

Lemma fuzzyMatch_is_best_similarity_witness :
  (0 <= fuzzyMatch (lit "imige") [lit "image"; lit "a"])%Q
  ∧ (∀ word, word ∈ [lit "image"; lit "a"] → 2 ≤ length word →
       (similarity (lit "imige") word <= fuzzyMatch (lit "imige") [lit "image"; lit "a"])%Q)
  ∧ (fuzzyMatch (lit "imige") [lit "image"; lit "a"] = 0%Q
     ∨ ∃ word, word ∈ [lit "image"; lit "a"] ∧ 2 ≤ length word
         ∧ fuzzyMatch (lit "imige") [lit "image"; lit "a"] = similarity (lit "imige") word).
Proof.
  apply (fuzzyMatch_is_best_similarity (lit "imige") [lit "image"; lit "a"]).
  intros word Hin Hlen Hp. apply startsWith_prefix in Hp.
  apply elem_of_cons in Hin as [->|Hin]; [vm_compute in Hp; discriminate|].
  apply elem_of_cons in Hin as [->|Hin]; [vm_compute in Hlen; lia | by apply elem_of_nil in Hin].
Defined.

Lemma forallb_permutation {A} (f : A → bool) l1 l2 :
  l1 ≡ₚ l2 → forallb f l1 = forallb f l2.
Proof.
  induction 1 as [|x l1 l2 _ IH|x y l|l1 l2 l3 _ IH1 _ IH2]; simpl;
    [done | by rewrite IH | by destruct (f x), (f y) | congruence].
Qed.

Lemma sum_permutation l1 l2 : l1 ≡ₚ l2 → foldr Z.add 0%Z l1 = foldr Z.add 0%Z l2.
Proof.
  induction 1 as [|x l1 l2 _ IH|x y l|l1 l2 l3 _ IH1 _ IH2]; simpl; lia.
Qed.

(** X7: the score of a tool does not depend on the order of the query
    words. *)
Theorem calculateMatchScore_word_order index tool queryWords1 queryWords2 :
  queryWords1 ≡ₚ queryWords2 →
  calculateMatchScore index tool queryWords1 = calculateMatchScore index tool queryWords2.
Proof.
  intros Hp. unfold calculateMatchScore.
  rewrite (Permutation_length Hp). destruct (_ || _); [done|].
  destruct (index !! _); [|done]. cbv zeta. rewrite !calculateMatchScore_from_sum.
  rewrite (forallb_permutation _ _ _ (fmap_Permutation _ _ _ Hp)).
  by rewrite (sum_permutation _ _ (fmap_Permutation _ _ _ Hp)).
Qed.

Lemma calculateMatchScore_word_order_witness :
  calculateMatchScore (indexOfTools [gimp; krita; vlc]) gimp [lit "image"; lit "gimp"]
  = calculateMatchScore (indexOfTools [gimp; krita; vlc]) gimp [lit "gimp"; lit "image"].
Proof.
  apply (calculateMatchScore_word_order (indexOfTools [gimp; krita; vlc]) gimp
           [lit "image"; lit "gimp"] [lit "gimp"; lit "image"]).
  apply perm_swap.
Defined.

Lemma round_half_even_nonneg n d : (0 ≤ n)%Z → (0 < d)%Z → (0 ≤ round_half_even n d)%Z.
Proof.
  intros Hn Hd. unfold round_half_even. cbv zeta.
  assert (0 ≤ n / d)%Z by (apply Z.div_pos; lia).
  repeat case_match; lia.
Qed.

Lemma b64_nonneg x : (0 <= x)%Q → (0 <= b64 x)%Q.
Proof.
  intros Hx. assert (0 ≤ Qnum x)%Z as Hn.
  { unfold Qle in Hx. simpl in Hx. lia. }
  unfold b64. cbv zeta. destruct (Z.abs (Qnum x) =? 0)%Z eqn:E0; [apply Qle_refl|].
  apply Z.eqb_neq in E0.
  assert (Z.sgn (Qnum x) = 1%Z) as -> by (apply Z.sgn_pos; lia).
  set (e := Z.max _ (-1074)).
  set (a := fst _). set (b := snd _).
  assert (0 ≤ a)%Z as Ha.
  { unfold a. destruct (0 <=? e)%Z; cbn [fst]; [lia|].
    apply Z.mul_nonneg_nonneg; [lia|]. apply Z.pow_nonneg. lia. }
  assert (0 < b)%Z as Hb.
  { unfold b. destruct (0 <=? e)%Z eqn:Ee; cbn [snd]; [|lia].
    apply Z.leb_le in Ee. apply Z.mul_pos_pos; [lia|]. apply Z.pow_pos_nonneg; lia. }
  pose proof (round_half_even_nonneg a b Ha Hb) as Hr.
  rewrite Z.mul_1_l. destruct (0 <=? e)%Z eqn:Ee.
  - apply Z.leb_le in Ee. change 0%Q with (inject_Z 0). rewrite <- Zle_Qle.
    apply Z.mul_nonneg_nonneg; [exact Hr|]. apply Z.pow_nonneg. lia.
  - rewrite Qred_correct. unfold Qle. cbn [Qnum Qden]. lia.
Qed.

Lemma wordScore_nonneg lowerName lowerTagline e w :
  (0 ≤ wordScore lowerName lowerTagline e w)%Z.
Proof.
  unfold wordScore.
  repeat match goal with
  | |- context [bool_decide ?P] => destruct (bool_decide P); [lia|]
  | |- context [startsWith ?s ?w] => destruct (startsWith s w); [lia|]
  | |- context [includes ?s ?w] => destruct (includes s w); [lia|]
  | |- context [existsb ?f ?l] => destruct (existsb f l); [lia|]
  end.
  cbv zeta. destruct (Qltb _ _) eqn:E; [|lia].
  apply Qltb_lt in E.
  assert (0 <= fuzzyMatch w (words e))%Q as Hf.
  { apply Qlt_le_weak. eapply Qle_lt_trans; [|exact E]. by apply b64_nonneg. }
  change 0%Z with (Qfloor 0). apply Qfloor_resp_le, b64_nonneg.
  apply Qmult_le_0_compat; [exact Hf | done].
Qed.

Lemma sum_nonneg l : Forall (λ z, (0 ≤ z)%Z) l → (0 ≤ foldr Z.add 0 l)%Z.
Proof. induction 1; simpl; lia. Qed.

(** X8: a score is never negative, and it is 0 for a falsy tool, for a
    tool the index does not know and for an empty list of query words. *)
Theorem calculateMatchScore_edge_cases index tool queryWords :
  (0 ≤ calculateMatchScore index tool queryWords)%Z
  ∧ (truthy tool = false → calculateMatchScore index tool queryWords = 0%Z)
  ∧ (index !! field Tool.id tool = None → calculateMatchScore index tool queryWords = 0%Z)
  ∧ calculateMatchScore index tool [] = 0%Z.
Proof.
  unfold calculateMatchScore. split; [|split; [|split]].
  - destruct (_ || _); [done|]. destruct (index !! _); [|done]. cbv zeta.
    rewrite calculateMatchScore_from_sum. destruct (forallb _ _); [|done].
    rewrite Z.add_0_l. apply sum_nonneg, Forall_fmap, Forall_forall.
    intros w _. apply wordScore_nonneg.
  - by intros ->.
  - intros ->. by destruct (_ || _).
  - by rewrite orb_true_r.
Qed.

(** ** More on the index *)

Lemma splitWhiteSpace_pieces s : ∀ in_run cur,
  Forall (λ c, isWhiteSpace c = false) cur →
  Forall (Forall (λ c, isWhiteSpace c = false)) (splitWhiteSpace in_run cur s).
Proof.
  induction s as [|c s IH]; intros in_run cur Hcur; cbn [splitWhiteSpace].
  - constructor; [by apply Forall_reverse | constructor].
  - destruct (isWhiteSpace c) eqn:Ec.
    + apply Forall_app. split; [|by apply IH].
      destruct in_run; [constructor|]. constructor; [by apply Forall_reverse | constructor].
    + apply IH. by constructor.
Qed.

Lemma List_filter_Forall {A} (P : A → Prop) (f : A → bool) l :
  Forall P l → Forall P (List.filter f l).
Proof.
  intros H. apply Forall_forall. intros x [Hx _]%elem_of_List_filter.
  by apply (proj1 (Forall_forall _ _) H).
Qed.

Lemma queryWordsOf_are_words query : words_of query (queryWordsOf query).
Proof.
  destruct (words_of_total query) as [ws Hws].
  by rewrite (queryWordsOf_words_of query ws Hws).
Qed.

Lemma filter_longer_words (l : list jstring) :
  List.filter (λ w, 1 <? length w) (List.filter (λ w, 0 <? length w) l)
  = List.filter (λ w, 1 <? length w) l.
Proof.
  induction l as [|w l IH]; [done|]. cbn [List.filter].
  destruct (0 <? length w) eqn:E0, (1 <? length w) eqn:E1;
    cbn [List.filter]; rewrite ?E1, ?IH; try done.
  apply Nat.ltb_ge in E0. apply Nat.ltb_lt in E1. lia.
Qed.

(** X9: the words of an entry of the index are the words of its text (the
    runs of code units between white space) that have two code units or
    more; none holds white space. *)
Theorem indexEntryOf_words tool :
  ∃ ws,
    words_of (text (indexEntryOf tool)) ws
    ∧ words (indexEntryOf tool) = List.filter (λ w, 1 <? length w) ws
    ∧ Forall (λ w, 2 ≤ length w ∧ Forall (λ c, isWhiteSpace c = false) w)
        (words (indexEntryOf tool)).
Proof.
  exists (queryWordsOf (text (indexEntryOf tool))).
  split; [apply queryWordsOf_are_words|]. split.
  - unfold indexEntryOf, queryWordsOf. cbv zeta. cbn [words text].
    by rewrite filter_longer_words.
  - unfold indexEntryOf. cbv zeta. cbn [words text].
    apply Forall_forall. intros w [Hw Hlen]%elem_of_List_filter. split.
    + by apply Nat.ltb_lt in Hlen.
    + eapply (proj1 (Forall_forall _ _)); [|exact Hw]. by apply splitWhiteSpace_pieces.
Qed.

Lemma indexOfTools_lookup ts key :
  indexOfTools ts !! key
  = indexEntryOf <$> last (List.filter (λ tool, bool_decide (field Tool.id tool = key)) ts).
Proof.
  induction ts as [|tool ts IH] using rev_ind; [done|].
  rewrite indexOfTools_snoc, List.filter_app. cbn [List.filter].
  case_bool_decide as Hk.
  - subst key. by rewrite lookup_insert_eq, last_snoc.
  - rewrite lookup_insert_ne by done. by rewrite app_nil_r.
Qed.

Section index_more.
Context {W : Type} (host : Event → W → bool * W).

Lemma forEach_index_nonnull (l : list JsVal) : ∀ v (w : W),
  Forall (λ tool, tool ≠ JUndefined ∧ tool ≠ JNull) l →
  forEach l (λ tool,
    match tool return Eff W unit with
    | JUndefined | JNull => throw
    | _ => modify (with_searchIndex (λ index,
             <[field Tool.id tool := indexEntryOf tool]> index))
    end) (mkRun v w)
  = (Normal (),
     mkRun (with_searchIndex
              (λ index, foldl (λ index tool, <[field Tool.id tool := indexEntryOf tool]> index)
                          index l) v) w,
     []).
Proof.
  induction l as [|tool l IH]; intros v w Hl.
  { by destruct v. }
  apply Forall_cons in Hl as [[Ht1 Ht2] Hl]. cbn [forEach].
  destruct tool; try done; rewrite run_modify; cbn [vars world]; by rewrite IH.
Qed.

Lemma forEach_index_null (l : list JsVal) : ∀ (r : Run W),
  JUndefined ∈ l ∨ JNull ∈ l →
  completion (forEach l (λ tool,
    match tool return Eff W unit with
    | JUndefined | JNull => throw
    | _ => modify (with_searchIndex (λ index,
             <[field Tool.id tool := indexEntryOf tool]> index))
    end)) r = Thrown.
Proof.
  induction l as [|tool l IH]; intros r Hl.
  { destruct Hl as [Hl|Hl]; by apply elem_of_nil in Hl. }
  cbn [forEach]. unfold completion in *.
  assert (tool = JUndefined ∨ tool = JNull ∨ (JUndefined ∈ l ∨ JNull ∈ l)) as Hcases.
  { destruct Hl as [[<-|Hl]%elem_of_cons|[<-|Hl]%elem_of_cons]; auto. }
  destruct tool; try (destruct Hcases as [?|[?|Hcases]]; try done;
    rewrite run_modify; by apply IH); done.
Qed.
End index_more.

(** X10: for tools that follow the schema of [tools.json] (string fields
    hold strings, list fields hold arrays of strings): over tools none of
    which is [null] or [undefined], [buildSearchIndex] makes no call and
    does not throw, keeps the tools, and leaves under each id the entry of
    the last tool with that id (and nothing under any other key); it
    throws when a tool is [null] or [undefined]. *)
Theorem buildSearchIndex_last_wins {W} (r : Run W) :
  (Forall (λ tool, tool ≠ JUndefined ∧ tool ≠ JNull) (tools (vars r)) →
   completion (buildSearchIndex (World := W)) r = Normal ()
   ∧ events (buildSearchIndex (World := W)) r = []
   ∧ tools (vars (final (buildSearchIndex (World := W)) r)) = tools (vars r)
   ∧ ∀ key,
       searchIndex (vars (final (buildSearchIndex (World := W)) r)) !! key
       = indexEntryOf
         <$> last (List.filter (λ tool, bool_decide (field Tool.id tool = key))
                     (tools (vars r))))
  ∧ (JUndefined ∈ tools (vars r) ∨ JNull ∈ tools (vars r) →
     completion (buildSearchIndex (World := W)) r = Thrown).
Proof.
  split.
  - intros H. unfold buildSearchIndex, completion, events, final.
    rewrite run_modify, run_get. cbn [vars world].
    change (tools (with_searchIndex _ (vars r))) with (tools (vars r)).
    rewrite forEach_index_nonnull by done. cbn.
    repeat split. intros key. apply indexOfTools_lookup.
  - intros H. unfold buildSearchIndex, completion.
    rewrite run_modify, run_get. cbn [vars world].
    change (tools (with_searchIndex _ (vars r))) with (tools (vars r)).
    by apply forEach_index_null.
Qed.

(** ** More on the initialisation *)

Section init_more.
Context {W : Type} (host : Event → W → bool * W).

Lemma init_fresh_cases toolsData onResults (r : Run W) :
  State.isInitialized (state (vars r)) = false →
  let c := completion (init host toolsData onResults) r in
  let v := vars (final (init host toolsData onResults) r) in
  (c = Normal () ∧ v = initialised toolsData onResults (vars r))
  ∨ (c = Normal () ∧ v = with_tools [] (initialised toolsData onResults (vars r)))
  ∨ (c = Thrown
     ∧ (v = initialised toolsData onResults (vars r)
        ∨ v = with_state (set_isInitialized false) (initialised toolsData onResults (vars r)))
     ∧ last (events (init host toolsData onResults) r) = Some ConsoleError).
Proof.
  intros Hi. cbv zeta. unfold completion, final, events, init.
  rewrite run_try_catch, run_get, Hi.
  rewrite run_modify, run_bind, buildSearchIndex_run; cbn [vars world tools with_tools].
  2:{ fold (retained toolsData). eapply Forall_impl; [apply retained_valid|].
      intros tool (o & -> & _)%validTool_object. done. }
  fold (retained toolsData). rewrite run_modify. cbn [vars world].
  unfold setupEventListeners. rewrite run_bind, run_try_catch, !run_call. cbn [vars world].
  destruct (host SetupListeners (world r)) as [[] w1]; cbn [fst snd].
  - destruct (host ConsoleError w1) as [[] w2]; cbn [fst snd app vars world].
    + rewrite run_call_bind. cbn [vars world].
      destruct (host ConsoleError w2) as [[] w3]; cbn [fst snd vars world].
      * right. right. split; [done|]. split; [|done]. right.
        unfold initialised, with_state. cbn. rewrite <- Hi. by destruct (vars r) as [[]].
      * right. left. done.
    + rewrite run_modify, run_call. cbn [vars world].
      destruct (host ConsoleLog w2) as [[] w3]; cbn [fst snd vars world].
      * rewrite run_call_bind. cbn [vars world].
        destruct (host ConsoleError w3) as [[] w4]; cbn [fst snd vars world];
          [right; right; split; [done|]; split; [by left | done] | by right; left].
      * by left.
  - rewrite run_modify, run_call. cbn [vars world].
    destruct (host ConsoleLog w1) as [[] w3]; cbn [fst snd vars world].
    + rewrite run_call_bind. cbn [vars world].
      destruct (host ConsoleError w3) as [[] w4]; cbn [fst snd vars world];
        [right; right; split; [done|]; split; [by left | done] | by right; left].
    + by left.
Qed.

Lemma init_fresh_quiet toolsData onResults (r : Run W) :
  State.isInitialized (state (vars r)) = false →
  (∀ e w, (host e w).1 = false) →
  init host toolsData onResults r
  = (Normal (),
     mkRun (initialised toolsData onResults (vars r))
       (host ConsoleLog (host SetupListeners (world r)).2).2,
     [SetupListeners; ConsoleLog]).
Proof.
  intros Hi Hq. unfold init.
  rewrite run_try_catch, run_get, Hi.
  rewrite run_modify, run_bind, buildSearchIndex_run; cbn [vars world tools with_tools].
  2:{ fold (retained toolsData). eapply Forall_impl; [apply retained_valid|].
      intros tool (o & -> & _)%validTool_object. done. }
  fold (retained toolsData). rewrite run_modify. cbn [vars world].
  unfold setupEventListeners. rewrite run_bind, run_try_catch, !run_call. cbn [vars world].
  rewrite Hq. rewrite run_modify, run_call. cbn [vars world]. rewrite Hq. done.
Qed.
End init_more.

(** X11: for a [toolsData] whose objects follow the schema of [tools.json]:
    [init] on a module that is not initialised registers the callback,
    leaves an index built from the retained tools, keeps the filters, and
    retains the valid elements of [toolsData] or nothing; when it returns
    normally the module is initialised, and it only throws when the
    logging of an error throws. *)
Theorem init_outcome {W} (host : Event → W → bool * W) toolsData onResults (r : Run W) :
  State.isInitialized (state (vars r)) = false →
  onResultsCallback (vars (final (init host toolsData onResults) r)) = onResults
  ∧ indexed (vars (final (init host toolsData onResults) r))
  ∧ same_filters (state (vars r)) (state (vars (final (init host toolsData onResults) r)))
  ∧ (tools (vars (final (init host toolsData onResults) r)) = retained toolsData
     ∨ tools (vars (final (init host toolsData onResults) r)) = [])
  ∧ (completion (init host toolsData onResults) r = Normal () →
     State.isInitialized (state (vars (final (init host toolsData onResults) r))) = true)
  ∧ (completion (init host toolsData onResults) r = Thrown →
     last (events (init host toolsData onResults) r) = Some ConsoleError).
Proof.
  intros Hi.
  assert (indexed (initialised toolsData onResults (vars r))) as H1 by (by intros tool _).
  assert (indexed (with_tools [] (initialised toolsData onResults (vars r)))) as H2
    by (by intros tool ?%elem_of_nil).
  assert (indexed (with_state (set_isInitialized false)
                     (initialised toolsData onResults (vars r)))) as H3 by (by intros tool _).
  destruct (init_fresh_cases host toolsData onResults r Hi)
    as [[Hc ->]|[[Hc ->]|(Hc & [->| ->] & He)]]; rewrite Hc;
    (split; [done|]); (split; [assumption|]); (split; [done|]);
    (split; [auto|]); split; done.
Qed.

Lemma init_outcome_witness :
  onResultsCallback (vars (final (init failing_announcer_host (JArr [gimp; JNull]) (Some 1%N))
                             (mkRun initialVars ()))) = Some 1%N
  ∧ indexed (vars (final (init failing_announcer_host (JArr [gimp; JNull]) (Some 1%N))
                     (mkRun initialVars ())))
  ∧ same_filters (state initialVars)
      (state (vars (final (init failing_announcer_host (JArr [gimp; JNull]) (Some 1%N))
                      (mkRun initialVars ()))))
  ∧ (tools (vars (final (init failing_announcer_host (JArr [gimp; JNull]) (Some 1%N))
                    (mkRun initialVars ()))) = retained (JArr [gimp; JNull])
     ∨ tools (vars (final (init failing_announcer_host (JArr [gimp; JNull]) (Some 1%N))
                      (mkRun initialVars ()))) = [])
  ∧ (completion (init failing_announcer_host (JArr [gimp; JNull]) (Some 1%N))
       (mkRun initialVars ()) = Normal () →
     State.isInitialized
       (state (vars (final (init failing_announcer_host (JArr [gimp; JNull]) (Some 1%N))
                       (mkRun initialVars ())))) = true)
  ∧ (completion (init failing_announcer_host (JArr [gimp; JNull]) (Some 1%N))
       (mkRun initialVars ()) = Thrown →
     last (events (init failing_announcer_host (JArr [gimp; JNull]) (Some 1%N))
             (mkRun initialVars ())) = Some ConsoleError).
Proof.
  apply (init_outcome failing_announcer_host (JArr [gimp; JNull]) (Some 1%N)
           (mkRun initialVars ())).
  reflexivity.
Defined.

(** X12: for a [toolsData] whose objects follow the schema of [tools.json]:
    on a fresh module and in a browser where nothing throws, [init]
    followed by [performSearch] sets up the listeners, logs, hides the
    loading state, hands all the retained tools to the callback and
    announces their number. *)
Theorem init_then_search {W} (host : Event → W → bool * W) toolsData cb (r : Run W) :
  vars r = initialVars →
  (∀ e w, (host e w).1 = false) →
  events (init host toolsData (Some cb);; performSearch host) r
  = [SetupListeners; ConsoleLog; HideLoadingState;
     OnResults cb (retained toolsData)
       (Meta.mk [] (lit "all") [] [] (length (retained toolsData)) false false false);
     AnnounceResults (length (retained toolsData)) [] 0]
  ∧ completion (init host toolsData (Some cb);; performSearch host) r = Normal ()
  ∧ tools (vars (final (init host toolsData (Some cb);; performSearch host) r))
    = retained toolsData.
Proof.
  intros Hv Hq. unfold events, completion, final.
  rewrite run_bind, init_fresh_quiet by (done || by rewrite Hv).
  set (r1 := mkRun _ _).
  assert (completion (performSearch_try host) r1 = Normal ()
          ∧ events (performSearch_try host) r1 = searchEvents (vars r1)
          ∧ vars (final (performSearch_try host) r1)
            = with_lastProcessedKey (Some (searchKeyOf (state (vars r1)))) (vars r1))
    as (Hc & He & Hf).
  { unfold completion, events, final. rewrite performSearch_try_calls.
    rewrite bool_decide_false by (unfold r1; rewrite Hv; done).
    assert (∀ es (r : Run W), calls host es r
              = (Normal (), mkRun (vars r) (world (calls host es r).1.2), es)) as Hcalls.
    { induction es as [|e es IH]; intros r0; [by destruct r0|].
      rewrite calls_cons, Hq, (IH (mkRun _ _)). done. }
    rewrite Hcalls. done. }
  pose proof (performSearch_normal host r1 Hc) as Hn.
  unfold completion, events, final in *. rewrite Hn.
  destruct (performSearch_try host r1) as [[c r2] ev2]. cbn [fst snd] in *. subst c ev2.
  split; [|split; [done|]].
  - unfold r1, searchEvents. cbn [vars onResultsCallback initialised app].
    rewrite Hv. done.
  - rewrite Hf. unfold r1. done.
Qed.

Lemma init_then_search_witness :
  events (init quiet_host (JArr [gimp; JNull; vlc]) (Some 1%N);; performSearch quiet_host)
    (mkRun initialVars ())
  = [SetupListeners; ConsoleLog; HideLoadingState;
     OnResults 1%N (retained (JArr [gimp; JNull; vlc]))
       (Meta.mk [] (lit "all") [] [] (length (retained (JArr [gimp; JNull; vlc])))
          false false false);
     AnnounceResults (length (retained (JArr [gimp; JNull; vlc]))) [] 0]
  ∧ completion (init quiet_host (JArr [gimp; JNull; vlc]) (Some 1%N);; performSearch quiet_host)
      (mkRun initialVars ()) = Normal ()
  ∧ tools (vars (final (init quiet_host (JArr [gimp; JNull; vlc]) (Some 1%N);;
                        performSearch quiet_host) (mkRun initialVars ())))
    = retained (JArr [gimp; JNull; vlc]).
Proof.
  apply (init_then_search quiet_host (JArr [gimp; JNull; vlc]) 1%N (mkRun initialVars ())).
  - reflexivity.
  - intros e w. reflexivity.
Defined.

(** ** The operations that set the filters *)

(** Proves that an operation changes [lastProcessedKey] only. *)
Ltac frame :=
  repeat first
    [ apply (changes_bind same_but_key); [|intros ?]
    | apply (changes_call _ same_but_key)
    | apply (changes_get same_but_key)
    | apply (changes_ret same_but_key)
    | apply (changes_throw same_but_key)
    | exact (performSearch_same _)
    | apply notifyStateChange_same
    | match goal with |- changes _ (match ?x with _ => _ end) => destruct x end ].

(** X13: [setCategory], [setPlatforms], [setTags] and [clearFilters] change
    the fields they set and nothing else of the state, the tools, the
    index and the callback, whether or not a call throws; a category that
    is not a string becomes 'all', platforms and tags that are not arrays
    become empty. *)
Theorem setters_change_their_field {W} (host : Event → W → bool * W) (r : Run W)
    category platforms tags :
  let unchanged (v : Vars) :=
    tools v = tools (vars r) ∧ searchIndex v = searchIndex (vars r)
    ∧ onResultsCallback v = onResultsCallback (vars r) in
  (state (vars (final (setCategory host category) r))
   = set_category (default (lit "all") category) (state (vars r))
   ∧ unchanged (vars (final (setCategory host category) r)))
  ∧ (state (vars (final (setPlatforms host platforms) r))
     = set_platforms (or_empty platforms) (state (vars r))
     ∧ unchanged (vars (final (setPlatforms host platforms) r)))
  ∧ (state (vars (final (setTags host tags) r))
     = set_tags (or_empty tags) (state (vars r))
     ∧ unchanged (vars (final (setTags host tags) r)))
  ∧ (state (vars (final (clearFilters host) r))
     = set_tags [] (set_platforms [] (state (vars r)))
     ∧ unchanged (vars (final (clearFilters host) r))).
Proof.
  cbv zeta. unfold setCategory, setPlatforms, setTags, clearFilters.
  repeat split;
    match goal with
    | |- context [modify (with_state ?f)] =>
        destruct (update_then_search host f r) as (H1 & H2 & H3 & H4); cbv zeta in *;
        assumption
    end.
Qed.


(** ** Clearing and resetting *)

Section sequences.
Context {W : Type} (host : Event → W → bool * W).

Lemma bind_normal {A B} (m : Eff W A) (k : A → Eff W B) r a :
  completion m r = Normal a →
  completion (m ≫= k) r = completion (k a) (final m r)
  ∧ final (m ≫= k) r = final (k a) (final m r)
  ∧ events (m ≫= k) r = events m r ++ events (k a) (final m r).
Proof.
  unfold completion, final, events. rewrite run_bind.
  destruct (m r) as [[[a'|] r1] ev1]; [|done]. intros [= ->]. cbn [fst snd].
  by destruct (k a r1) as [[c r2] ev2].
Qed.

Lemma bind_thrown {A B} (m : Eff W A) (k : A → Eff W B) r :
  completion m r = Thrown →
  completion (m ≫= k) r = Thrown
  ∧ final (m ≫= k) r = final m r
  ∧ events (m ≫= k) r = events m r.
Proof.
  unfold completion, final, events. rewrite run_bind.
  by destruct (m r) as [[[a'|] r1] ev1].
Qed.

Lemma call_quiet e (r : Run W) :
  (host e (world r)).1 = false →
  completion (call host e) r = Normal ()
  ∧ vars (final (call host e) r) = vars r
  ∧ events (call host e) r = [e].
Proof. intros H. unfold completion, final, events. by rewrite run_call, H. Qed.

Lemma calls_quiet es : ∀ (r : Run W),
  (∀ e w, (host e w).1 = false) →
  completion (calls host es) r = Normal ()
  ∧ vars (final (calls host es) r) = vars r
  ∧ events (calls host es) r = es.
Proof.
  intros r Hq. split; [|split; [apply calls_vars|]].
  - revert r. induction es as [|e es IH]; intros r; [done|].
    unfold completion in *. rewrite calls_cons, Hq.
    specialize (IH (mkRun (vars r) (host e (world r)).2)).
    by destruct (calls host es _) as [[c r2] ev2].
  - revert r. induction es as [|e es IH]; intros r; [done|].
    unfold events in *. rewrite calls_cons, Hq.
    specialize (IH (mkRun (vars r) (host e (world r)).2)).
    destruct (calls host es _) as [[c r2] ev2]. cbn [snd] in *. by rewrite IH.
Qed.

Lemma performSearch_quiet (r : Run W) :
  (∀ e w, (host e w).1 = false) →
  lastProcessedKey (vars r) ≠ Some (searchKeyOf (state (vars r))) →
  completion (performSearch host) r = Normal ()
  ∧ vars (final (performSearch host) r)
    = with_lastProcessedKey (Some (searchKeyOf (state (vars r)))) (vars r)
  ∧ events (performSearch host) r = searchEvents (vars r).
Proof.
  intros Hq Hk.
  assert (completion (performSearch_try host) r = Normal ()
          ∧ vars (final (performSearch_try host) r)
            = with_lastProcessedKey (Some (searchKeyOf (state (vars r)))) (vars r)
          ∧ events (performSearch_try host) r = searchEvents (vars r)) as (Hc & Hv & He).
  { unfold completion, final, events. rewrite performSearch_try_calls.
    rewrite bool_decide_false by congruence. by apply calls_quiet. }
  unfold completion, final, events in *. by rewrite performSearch_normal.
Qed.
End sequences.

Section sequences2.
Context {W : Type} (host : Event → W → bool * W).

Lemma completion_call_bind {B} e (k : Eff W B) r :
  (host e (world r)).1 = false →
  completion (call host e;; k) r = completion k (mkRun (vars r) (host e (world r)).2).
Proof.
  intros H. unfold completion. rewrite run_call_bind, H. by destruct (k _) as [[c r2] ev2].
Qed.

Lemma final_call_bind {B} e (k : Eff W B) r :
  (host e (world r)).1 = false →
  final (call host e;; k) r = final k (mkRun (vars r) (host e (world r)).2).
Proof.
  intros H. unfold final. rewrite run_call_bind, H. by destruct (k _) as [[c r2] ev2].
Qed.

Lemma events_call_bind {B} e (k : Eff W B) r :
  (host e (world r)).1 = false →
  events (call host e;; k) r = e :: events k (mkRun (vars r) (host e (world r)).2).
Proof.
  intros H. unfold events. rewrite run_call_bind, H. by destruct (k _) as [[c r2] ev2].
Qed.

Lemma final_modify_bind {B} f (k : Eff W B) r :
  final (modify f;; k) r = final k (mkRun (f (vars r)) (world r)).
Proof. unfold final. by rewrite run_modify. Qed.

Lemma events_modify_bind {B} f (k : Eff W B) r :
  events (modify f;; k) r = events k (mkRun (f (vars r)) (world r)).
Proof. unfold events. by rewrite run_modify. Qed.

Lemma completion_modify_bind {B} f (k : Eff W B) r :
  completion (modify f;; k) r = completion k (mkRun (f (vars r)) (world r)).
Proof. unfold completion. by rewrite run_modify. Qed.

Lemma notifyStateChange_quiet (r : Run W) :
  (∀ e w, (host e w).1 = false) →
  completion (notifyStateChange host) r = Normal ()
  ∧ vars (final (notifyStateChange host) r) = vars r
  ∧ events (notifyStateChange host) r = [StateChanged (getState (vars r))].
Proof.
  intros Hq. unfold notifyStateChange, completion, final, events.
  by rewrite run_get, run_call, Hq.
Qed.

(** A search that is not skipped, followed by the notification, in a
    browser where nothing throws. *)
Lemma search_and_notify_quiet (r : Run W) :
  (∀ e w, (host e w).1 = false) →
  lastProcessedKey (vars r) ≠ Some (searchKeyOf (state (vars r))) →
  completion (performSearch host;; notifyStateChange host) r = Normal ()
  ∧ vars (final (performSearch host;; notifyStateChange host) r)
    = with_lastProcessedKey (Some (searchKeyOf (state (vars r)))) (vars r)
  ∧ events (performSearch host;; notifyStateChange host) r
    = searchEvents (vars r) ++ [StateChanged (getState (vars r))].
Proof.
  intros Hq Hk. destruct (performSearch_quiet host r Hq Hk) as (Hc & Hv & He).
  destruct (bind_normal (performSearch host) (λ _, notifyStateChange host) r () Hc)
    as (-> & -> & ->).
  destruct (notifyStateChange_quiet (final (performSearch host) r) Hq) as (-> & -> & ->).
  by rewrite Hv, He.
Qed.
End sequences2.

Lemma searchResults_defaults v :
  State.query (state v) = [] → State.category (state v) = lit "all" →
  State.platforms (state v) = [] → State.tags (state v) = [] →
  searchResults v = tools v.
Proof.
  intros Hq Hc Hp Ht.
  unfold searchResults, filterByQuery, filtered, filterByTags, filterByPlatforms,
    filterByCategory.
  by rewrite Hq, Hc, Hp, Ht.
Qed.

Lemma hasActiveFilters_false s :
  hasActiveFilters s = false ↔
  State.query s = [] ∧ State.platforms s = [] ∧ State.tags s = []
  ∧ State.category s = lit "all".
Proof.
  unfold hasActiveFilters. rewrite !orb_false_iff, negb_false_iff, bool_decide_eq_true.
  rewrite !Nat.ltb_ge. split.
  - intros (((H1 & H2) & H3) & H4).
    repeat split; try done; apply nil_length_inv; lia.
  - intros (-> & -> & -> & ->). repeat split; simpl; lia.
Qed.

(** X15: [hasActiveFilters] is false exactly when the query is empty, no
    platform and no tag is selected and the category is 'all'; the copies
    of the state handed to subscribers and to the results callback carry
    the same flag; and without active filters the search yields all the
    tools. *)
Theorem hasActiveFilters_iff_defaults (v : Vars) :
  (hasActiveFilters (state v) = false ↔
   State.query (state v) = [] ∧ State.platforms (state v) = []
   ∧ State.tags (state v) = [] ∧ State.category (state v) = lit "all")
  ∧ Snapshot.hasActiveFilters (getState v) = hasActiveFilters (state v)
  ∧ Meta.hasActiveFilters (metaOf v) = hasActiveFilters (state v)
  ∧ (hasActiveFilters (state v) = false → searchResults v = tools v).
Proof.
  split; [apply hasActiveFilters_false|]. split; [done|]. split; [done|].
  intros (? & ? & ? & ?)%hasActiveFilters_false. by apply searchResults_defaults.
Qed.

(** X16: once the search input is looked up, [resetAll] leaves the default
    filters, whatever throws later, and keeps the tools; when nothing
    throws it clears the input and searches again, never skipping, so that
    the callback receives all the tools. *)
Theorem resetAll_outcome {W} (host : Event → W → bool * W) (r : Run W) :
  (host GetSearchInput (world r)).1 = false →
  state (vars (final (resetAll host) r)) = defaultFilters (state (vars r))
  ∧ hasActiveFilters (state (vars (final (resetAll host) r))) = false
  ∧ tools (vars (final (resetAll host) r)) = tools (vars r)
  ∧ ((∀ e w, (host e w).1 = false) →
     completion (resetAll host) r = Normal ()
     ∧ events (resetAll host) r
       = [GetSearchInput; SetInputValue (JStr []); UpdateSearchInputUI false;
          HideLoadingState]
         ++ match onResultsCallback (vars r) with
            | Some cb =>
                [OnResults cb (tools (vars r))
                   (Meta.mk [] (lit "all") [] [] (length (tools (vars r))) false false false)]
            | None => []
            end
         ++ [AnnounceResults (length (tools (vars r))) [] 0;
             StateChanged (getState (with_state defaultFilters (vars r)))]).
Proof.
  intros Hg. unfold resetAll.
  set (v1 := with_lastProcessedKey None (with_state defaultFilters (vars r))).
  set (rest := call host (SetInputValue (JStr []));; updateSearchInputUI host false;;
               performSearch host;; notifyStateChange host).
  assert (changes same_but_key rest) as Hrest by (unfold rest, updateSearchInputUI; frame).
  assert (∀ w, same_but_key v1 (vars (final rest (mkRun v1 w)))) as Hsame
    by (intros w; apply (Hrest (mkRun v1 w))).
  assert (final (call host GetSearchInput;;
                 modify (with_state (set_query []));;
                 modify (with_state (set_category (lit "all")));;
                 modify (with_state (set_platforms []));;
                 modify (with_state (set_tags []));;
                 modify (with_lastProcessedKey None);; rest) r
          = final rest (mkRun v1 (host GetSearchInput (world r)).2)) as Hf.
  { rewrite final_call_bind by done. rewrite !final_modify_bind. reflexivity. }
  fold rest. rewrite Hf.
  destruct (Hsame (host GetSearchInput (world r)).2) as (Hs & Ht & _).
  split; [by rewrite Hs|]. split; [by rewrite Hs|]. split; [by rewrite Ht|].
  intros Hq.
  rewrite completion_call_bind, events_call_bind by done.
  rewrite !completion_modify_bind, !events_modify_bind. cbn [vars world].
  change (with_lastProcessedKey None _) with v1.
  unfold rest, updateSearchInputUI.
  rewrite !completion_call_bind, !events_call_bind by apply Hq. cbn [vars world].
  destruct (search_and_notify_quiet host (mkRun v1 (host (UpdateSearchInputUI false)
              (host (SetInputValue (JStr [])) (host GetSearchInput (world r)).2).2).2) Hq)
    as (Hc & _ & He); [by unfold v1|].
  rewrite Hc, He. split; [done|].
  unfold searchEvents. rewrite searchResults_defaults by reflexivity.
  unfold v1. cbn [app vars onResultsCallback with_lastProcessedKey with_state].
  destruct (onResultsCallback (vars r)); reflexivity.
Qed.

Lemma resetAll_outcome_witness :
  state (vars (final (resetAll quiet_host)
                 (mkRun (sample_vars "gimp" "design" ["linux"]%string) ())))
  = defaultFilters (state (sample_vars "gimp" "design" ["linux"]%string))
  ∧ hasActiveFilters
      (state (vars (final (resetAll quiet_host)
                      (mkRun (sample_vars "gimp" "design" ["linux"]%string) ())))) = false
  ∧ tools (vars (final (resetAll quiet_host)
                   (mkRun (sample_vars "gimp" "design" ["linux"]%string) ())))
    = tools (sample_vars "gimp" "design" ["linux"]%string)
  ∧ ((∀ e w, (quiet_host e w).1 = false) →
     completion (resetAll quiet_host)
       (mkRun (sample_vars "gimp" "design" ["linux"]%string) ()) = Normal ()
     ∧ events (resetAll quiet_host) (mkRun (sample_vars "gimp" "design" ["linux"]%string) ())
       = [GetSearchInput; SetInputValue (JStr []); UpdateSearchInputUI false;
          HideLoadingState]
         ++ match onResultsCallback (sample_vars "gimp" "design" ["linux"]%string) with
            | Some cb =>
                [OnResults cb (tools (sample_vars "gimp" "design" ["linux"]%string))
                   (Meta.mk [] (lit "all") [] []
                      (length (tools (sample_vars "gimp" "design" ["linux"]%string)))
                      false false false)]
            | None => []
            end
         ++ [AnnounceResults
               (length (tools (sample_vars "gimp" "design" ["linux"]%string))) [] 0;
             StateChanged
               (getState (with_state defaultFilters
                            (sample_vars "gimp" "design" ["linux"]%string)))]).
Proof.
  apply (resetAll_outcome quiet_host
           (mkRun (sample_vars "gimp" "design" ["linux"]%string) ())).
  reflexivity.
Defined.

Lemma searchResults_no_query v :
  searchResults (with_state (set_query []) v) = filtered v.
Proof. done. Qed.

(** X17: once the input is cleared, [clearSearch] leaves an empty query
    and the other filters as they were; when nothing throws it searches
    again, never skipping, hands the tools that pass the filters to the
    callback, notifies the change and focuses the input. *)
Theorem clearSearch_outcome {W} (host : Event → W → bool * W) (r : Run W) :
  (host GetSearchInput (world r)).1 = false →
  (host (SetInputValue (JStr [])) (host GetSearchInput (world r)).2).1 = false →
  state (vars (final (clearSearch host) r)) = set_query [] (state (vars r))
  ∧ tools (vars (final (clearSearch host) r)) = tools (vars r)
  ∧ ((∀ e w, (host e w).1 = false) →
     completion (clearSearch host) r = Normal ()
     ∧ events (clearSearch host) r
       = [GetSearchInput; SetInputValue (JStr []); UpdateSearchInputUI false;
          HideLoadingState]
         ++ match onResultsCallback (vars r) with
            | Some cb =>
                [OnResults cb (filtered (vars r))
                   (metaOf (with_state (set_query []) (vars r)))]
            | None => []
            end
         ++ [AnnounceResults (length (filtered (vars r))) []
               (length (State.platforms (state (vars r)))
                + length (State.tags (state (vars r))));
             StateChanged (getState (with_state (set_query []) (vars r)));
             FocusInput]).
Proof.
  intros Hg Hs. unfold clearSearch.
  set (v1 := with_lastProcessedKey None (with_state (set_query []) (vars r))).
  set (rest := updateSearchInputUI host false;; performSearch host;;
               notifyStateChange host;; call host FocusInput).
  assert (changes same_but_key rest) as Hrest by (unfold rest, updateSearchInputUI; frame).
  rewrite !final_call_bind, !final_modify_bind by done. cbn [vars world].
  change (with_lastProcessedKey None _) with v1. fold rest.
  destruct (Hrest (mkRun v1 (host (SetInputValue (JStr []))
                               (host GetSearchInput (world r)).2).2)) as (H1 & H2 & _).
  cbn [vars] in H1, H2. split; [by rewrite H1|]. split; [by rewrite H2|].
  intros Hq.
  rewrite !completion_call_bind, !events_call_bind by done.
  rewrite !completion_modify_bind, !events_modify_bind. cbn [vars world].
  change (with_lastProcessedKey None _) with v1.
  unfold rest, updateSearchInputUI.
  rewrite completion_call_bind, events_call_bind by apply Hq. cbn [vars world].
  set (r2 := mkRun v1 _).
  destruct (performSearch_quiet host r2 Hq) as (Hc & Hv & He); [by unfold r2, v1|].
  destruct (bind_normal (performSearch host)
              (λ _, notifyStateChange host;; call host FocusInput) r2 () Hc) as (-> & _ & ->).
  set (r3 := final (performSearch host) r2) in *.
  destruct (notifyStateChange_quiet host r3 Hq) as (Hc3 & Hv3 & He3).
  destruct (bind_normal (notifyStateChange host) (λ _, call host FocusInput) r3 () Hc3)
    as (-> & _ & ->).
  destruct (call_quiet host FocusInput (final (notifyStateChange host) r3) (Hq _ _))
    as (-> & _ & ->).
  split; [done|]. rewrite He, He3, Hv. unfold searchEvents, r2, v1.
  cbn [app vars onResultsCallback with_lastProcessedKey with_state].
  destruct (onResultsCallback (vars r)); reflexivity.
Qed.

Lemma clearSearch_outcome_witness :
  state (vars (final (clearSearch quiet_host)
                 (mkRun (sample_vars "gimp" "design" ["linux"]%string) ())))
  = set_query [] (state (sample_vars "gimp" "design" ["linux"]%string))
  ∧ tools (vars (final (clearSearch quiet_host)
                   (mkRun (sample_vars "gimp" "design" ["linux"]%string) ())))
    = tools (sample_vars "gimp" "design" ["linux"]%string)
  ∧ ((∀ e w, (quiet_host e w).1 = false) →
     completion (clearSearch quiet_host)
       (mkRun (sample_vars "gimp" "design" ["linux"]%string) ()) = Normal ()
     ∧ events (clearSearch quiet_host)
         (mkRun (sample_vars "gimp" "design" ["linux"]%string) ())
       = [GetSearchInput; SetInputValue (JStr []); UpdateSearchInputUI false;
          HideLoadingState]
         ++ match onResultsCallback (sample_vars "gimp" "design" ["linux"]%string) with
            | Some cb =>
                [OnResults cb (filtered (sample_vars "gimp" "design" ["linux"]%string))
                   (metaOf (with_state (set_query [])
                              (sample_vars "gimp" "design" ["linux"]%string)))]
            | None => []
            end
         ++ [AnnounceResults
               (length (filtered (sample_vars "gimp" "design" ["linux"]%string))) []
               (length (State.platforms
                          (state (sample_vars "gimp" "design" ["linux"]%string)))
                + length (State.tags
                            (state (sample_vars "gimp" "design" ["linux"]%string))));
             StateChanged
               (getState (with_state (set_query [])
                            (sample_vars "gimp" "design" ["linux"]%string)));
             FocusInput]).
Proof.
  apply (clearSearch_outcome quiet_host
           (mkRun (sample_vars "gimp" "design" ["linux"]%string) ())); reflexivity.
Defined.

(** ** Setting the query *)

Lemma sanitizeQuery_length input : length (sanitizeQuery input) ≤ 2 * MAX_QUERY_LENGTH.
Proof.
  assert (input = JUndefined ∨ input = JNull ∨ (input ≠ JUndefined ∧ input ≠ JNull))
    as [->|[->|[H1 H2]]] by (destruct input; auto).
  1,2: simpl; unfold MAX_QUERY_LENGTH; lia.
  rewrite sanitizeQuery_string by done.
  pose proof (toLowerCase_length
    (take MAX_QUERY_LENGTH
       (collapseWhiteSpace false (trim (removeControl (ToString input)))))) as H.
  rewrite length_take in H. lia.
Qed.

(** X18: once the search input is looked up, [setQuery] stores the
    sanitised query, whatever throws later; for [null] and [undefined] it
    throws after setting the value of the input, without searching, and
    leaves an empty query. *)
Theorem setQuery_outcome {W} (host : Event → W → bool * W) (query : JsVal) (r : Run W) :
  (host GetSearchInput (world r)).1 = false →
  state (vars (final (setQuery host query) r))
  = set_query (sanitizeQuery query) (state (vars r))
  ∧ tools (vars (final (setQuery host query) r)) = tools (vars r)
  ∧ (query = JNull ∨ query = JUndefined →
     completion (setQuery host query) r = Thrown
     ∧ events (setQuery host query) r = [GetSearchInput; SetInputValue query]
     ∧ State.query (state (vars (final (setQuery host query) r))) = []).
Proof.
  intros Hg. unfold setQuery.
  set (rest := call host (SetInputValue query);;
               match length_positive query with
               | Some hasValue =>
                   updateSearchInputUI host hasValue;; performSearch host;;
                   notifyStateChange host
               | None => throw
               end).
  assert (changes same_but_key rest) as Hrest by (unfold rest, updateSearchInputUI; frame).
  rewrite final_call_bind, final_modify_bind by done. cbn [vars world].
  destruct (Hrest (mkRun (with_state (set_query (sanitizeQuery query)) (vars r))
                     (host GetSearchInput (world r)).2)) as (H1 & H2 & _).
  cbn [vars] in H1, H2. split; [by rewrite H1|]. split; [by rewrite H2|].
  intros Hnull. rewrite H1.
  rewrite completion_call_bind, events_call_bind by done.
  rewrite completion_modify_bind, events_modify_bind. cbn [vars world].
  unfold rest, completion, events. rewrite run_call_bind.
  destruct Hnull as [-> | ->]; cbn [length_positive vars world]; unfold throw;
    destruct (host (SetInputValue _) _).1; done.
Qed.

Lemma setQuery_outcome_witness :
  state (vars (final (setQuery quiet_host JNull) (mkRun (sample_vars "gimp" "all" []) ())))
  = set_query (sanitizeQuery JNull) (state (sample_vars "gimp" "all" []))
  ∧ tools (vars (final (setQuery quiet_host JNull) (mkRun (sample_vars "gimp" "all" []) ())))
    = tools (sample_vars "gimp" "all" [])
  ∧ (JNull = JNull ∨ JNull = JUndefined →
     completion (setQuery quiet_host JNull) (mkRun (sample_vars "gimp" "all" []) ()) = Thrown
     ∧ events (setQuery quiet_host JNull) (mkRun (sample_vars "gimp" "all" []) ())
       = [GetSearchInput; SetInputValue JNull]
     ∧ State.query
         (state (vars (final (setQuery quiet_host JNull)
                         (mkRun (sample_vars "gimp" "all" []) ())))) = []).
Proof.
  apply (setQuery_outcome quiet_host JNull (mkRun (sample_vars "gimp" "all" []) ())).
  reflexivity.
Defined.

(** X19: [handleSearchInput] stores the sanitised value of the input,
    whether or not a call throws, and keeps the tools; the stored query
    has at most twice [MAX_QUERY_LENGTH] code units, and is empty for a
    value that is [null] or [undefined]. *)
Theorem handleSearchInput_outcome {W} (host : Event → W → bool * W) (value : JsVal)
    (r : Run W) :
  state (vars (final (handleSearchInput host value) r))
  = set_query
      (sanitizeQuery match value with JUndefined | JNull => JStr [] | _ => value end)
      (state (vars r))
  ∧ tools (vars (final (handleSearchInput host value) r)) = tools (vars r)
  ∧ length (State.query (state (vars (final (handleSearchInput host value) r))))
    ≤ 2 * MAX_QUERY_LENGTH
  ∧ (value = JNull ∨ value = JUndefined →
     State.query (state (vars (final (handleSearchInput host value) r))) = []).
Proof.
  set (rawValue := match value with JUndefined | JNull => JStr [] | _ => value end).
  assert (same_but_key (with_state (set_query (sanitizeQuery rawValue)) (vars r))
            (vars (final (handleSearchInput host value) r))) as (H1 & H2 & _).
  { unfold handleSearchInput, final. cbv zeta. fold rawValue.
    rewrite run_try_catch, run_modify.
    set (body := match length_positive rawValue with
                 | Some hasValue =>
                     updateSearchInputUI host hasValue;; showLoadingState host;;
                     performSearch host;; notifyStateChange host
                 | None => throw
                 end).
    assert (changes same_but_key body) as Hbody
      by (unfold body, updateSearchInputUI, showLoadingState; frame).
    assert (changes same_but_key
              (call host ConsoleError;; v ← get; notifyResults host (tools v))) as Hhandler.
    { unfold notifyResults. frame. }
    pose proof (Hbody (mkRun (with_state (set_query (sanitizeQuery rawValue)) (vars r))
                         (world r))) as Hb.
    unfold final in Hb. destruct (body _) as [[[[]|] r1] ev1]; cbn [fst snd] in *; [done|].
    pose proof (Hhandler r1) as Hh. unfold final in Hh.
    destruct ((call host ConsoleError;; v ← get; notifyResults host (tools v)) r1)
      as [[c r2] ev2]. cbn [fst snd] in *. by etrans. }
  cbn [state tools with_state] in H1, H2. rewrite H1, H2.
  split; [done|]. split; [done|]. split; [apply sanitizeQuery_length|].
  intros [-> | ->]; done.
Qed.

(** ** More on the Levenshtein distance *)

Lemma levenshteinDistance_align a b : align (levenshteinDistance a b) a b.
Proof.
  rewrite levenshteinDistance_lev_rec.
  rewrite <- (reverse_involutive a) at 2. rewrite <- (reverse_involutive b) at 2.
  apply align_reverse, lev_rec_align.
Qed.

Lemma levenshteinDistance_least n a b : align n a b → levenshteinDistance a b ≤ n.
Proof.
  intros H. rewrite levenshteinDistance_lev_rec.
  eapply lev_rec_min; [done | by apply align_reverse].
Qed.

Lemma align_upper a : ∀ b, ∃ n, n ≤ length a `max` length b ∧ align n a b.
Proof.
  induction a as [|x a IH]; intros b.
  - exists (length b). split; [simpl; lia | apply align_nil_l].
  - destruct b as [|y b].
    + exists (length (x :: a)). split; [simpl; lia | apply align_nil_r].
    + destruct (IH b) as (n & Hn & Hal). exists (S n). split; [simpl; lia|].
      by apply align_sub.
Qed.

(** X20: [levenshteinDistance] satisfies the triangle inequality, is at
    most the length of the longer string and at least the difference of
    the lengths. *)
Theorem levenshteinDistance_metric a b c :
  levenshteinDistance a c ≤ levenshteinDistance a b + levenshteinDistance b c
  ∧ levenshteinDistance a b ≤ length a `max` length b
  ∧ length a - length b ≤ levenshteinDistance a b
  ∧ length b - length a ≤ levenshteinDistance a b.
Proof.
  split; [|split].
  - destruct (align_trans _ _ _ (levenshteinDistance_align a b) _ _
                (levenshteinDistance_align b c)) as (k & Hk & Hal).
    etrans; [by apply levenshteinDistance_least | done].
  - destruct (align_upper a b) as (n & Hn & Hal).
    etrans; [by apply levenshteinDistance_least | done].
  - pose proof (align_length _ _ _ (levenshteinDistance_align a b)). lia.
Qed.

(** ** Escaping a word for a regular expression *)

Lemma isRegExpSpecial_backslash : isRegExpSpecial 92 = true.
Proof. by vm_compute. Qed.

Lemma escape_chars (s : jstring) :
  unescape (s ≫= λ c, if isRegExpSpecial c then [92%N; c] else [c]) = s
  ∧ well_escaped (s ≫= λ c, if isRegExpSpecial c then [92%N; c] else [c]) = true.
Proof.
  induction s as [|c s [IH1 IH2]]; [done|].
  change ((c :: s) ≫= ?f) with (f c ++ (s ≫= f)). cbv beta.
  destruct (isRegExpSpecial c) eqn:E; cbn [app unescape well_escaped].
  - change (92 =? 92)%N with true. cbv iota. by rewrite E, IH1, IH2.
  - destruct (N.eqb_spec c 92) as [->|Hne].
    + by rewrite isRegExpSpecial_backslash in E.
    + by rewrite E, IH1, IH2.
Qed.

(** X21: [escapeRegExp] puts a backslash before every special character
    and nowhere else, so that reading the escapes back gives the string
    it was given; a falsy argument gives the empty pattern. *)
Theorem escapeRegExp_round_trip (string : JsVal) :
  unescape (escapeRegExp string) = ToString (if truthy string then string else JStr [])
  ∧ well_escaped (escapeRegExp string) = true
  ∧ (truthy string = false → escapeRegExp string = []).
Proof.
  unfold escapeRegExp. split; [apply escape_chars|]. split; [apply escape_chars|].
  by intros ->.
Qed.
